(** * Common.hpp of the concurrent memory pool: size classes, free lists, span lists

    A shallow embedding of [ConcurrentMemoryPool_CentralCache/Common.hpp].

    - [size_t] is the 64-bit unsigned type of the LP64 branch of the header
      ([unsigned long int]); a value is a [Z] in [0, 2^64) and every
      arithmetic operation is written with its wrap-around.
    - [int] is the 32-bit signed type.
    - Pointers are addresses ([Z]); [nullptr] is address 0.
    - [assert] is the one of <assert.h> without NDEBUG: a failed assertion
      aborts the program ([AssertFail]).  Dereferencing a pointer that does
      not designate an object has no defined behaviour ([Undefined]). *)

From Stdlib Require Import ZArith Lia List Bool.
From stdpp Require Import base option list gmap fin_maps.

Local Open Scope Z_scope.

(** ** Outcomes of a call *)

Inductive result (A : Type) : Type :=
| Ret (a : A)
| AssertFail
| Undefined.

Arguments Ret {A} a.
Arguments AssertFail {A}.
Arguments Undefined {A}.

#[export] Instance result_ret : MRet result := fun A a => Ret a.

#[export] Instance result_bind : MBind result := fun A B k r =>
  match r with
  | Ret a => k a
  | AssertFail => AssertFail
  | Undefined => Undefined
  end.

(** [assert(b)] *)
Definition assert (b : bool) : result unit :=
  if b then Ret tt else AssertFail.

(** ** Machine integers *)

Definition size_bits : Z := 64.
Definition int_bits : Z := 32.

(** Reduction of a mathematical integer to [size_t]. *)
Definition to_size (z : Z) : Z := z mod 2 ^ size_bits.

(** Conversion to [int] (two's complement). *)
Definition to_int (z : Z) : Z :=
  (z + 2 ^ (int_bits - 1)) mod 2 ^ int_bits - 2 ^ (int_bits - 1).

Definition size_add (a b : Z) : Z := to_size (a + b).
Definition size_sub (a b : Z) : Z := to_size (a - b).
Definition size_not (a : Z) : Z := to_size (Z.lnot a).
Definition size_and (a b : Z) : Z := Z.land a b.
Definition size_shr (a n : Z) : Z := Z.shiftr a n.
Definition size_div (a b : Z) : Z := a / b.
(** [1 << n] on [int] *)
Definition int_shl (a n : Z) : Z := to_int (Z.shiftl a n).

Definition MAX_BYTES : Z := 256 * 1024.
Definition NFREELIST : Z := 208.

(** ** SizeClass *)

(** [(bytes + alignNum - 1) & ~(alignNum - 1)] *)
Definition _RoundUp (bytes alignNum : Z) : Z :=
  size_and (size_sub (size_add bytes alignNum) 1)
           (size_not (size_sub alignNum 1)).

Definition RoundUp (size : Z) : result Z :=
  if size <=? 128 then Ret (_RoundUp size 8)
  else if size <=? 1024 then Ret (_RoundUp size 16)
  else if size <=? 8 * 1024 then Ret (_RoundUp size 128)
  else if size <=? 64 * 1024 then Ret (_RoundUp size 1024)
  else if size <=? 256 * 1024 then Ret (_RoundUp size (8 * 1024))
  else assert false ;; Ret (to_size (-1)).

(** [(bytes + (1 << align_shift) - 1) >> align_shift - 1]: in C++ the
    binary [-] binds tighter than [>>], so the shift amount is
    [align_shift - 1] and nothing is subtracted from the quotient. *)
Definition _Index (bytes align_shift : Z) : Z :=
  size_shr (size_sub (size_add bytes (to_size (int_shl 1 align_shift))) 1)
           (size_sub align_shift 1).

Definition group_array : list Z := [16; 56; 56; 56].

(** [group_array[i]], an [int] converted to [size_t] by the addition. *)
Definition group (i : nat) : Z := to_size (nth i group_array 0).

Definition Index (bytes : Z) : result Z :=
  if bytes <=? 128 then Ret (_Index bytes 3)
  else if bytes <=? 1024 then
    Ret (size_add (_Index (size_sub bytes 128) 4) (group 0))
  else if bytes <=? 8 * 1024 then
    Ret (size_add (size_add (_Index (size_sub bytes 1024) 7) (group 0)) (group 1))
  else if bytes <=? 64 * 1024 then
    Ret (size_add (size_add (size_add
           (_Index (size_sub bytes (8 * 1024)) 10) (group 0)) (group 1)) (group 2))
  else if bytes <=? 256 * 1024 then
    Ret (size_add (size_add (size_add (size_add
           (_Index (size_sub bytes (64 * 1024)) 13) (group 0)) (group 1)) (group 2))
           (group 3))
  else assert false ;; Ret (to_size (-1)).

Definition NumMoveSize (size : Z) : result Z :=
  assert (0 <? size) ;;
  let num := to_int (size_div MAX_BYTES size) in
  let num := if num <? 2 then 2 else num in
  let num := if 512 <? num then 512 else num in
  Ret (to_size num).

(** The alignment the specification attaches to a request size. *)
Definition tier_align (size : Z) : Z :=
  if size <=? 128 then 8
  else if size <=? 1024 then 16
  else if size <=? 8192 then 128
  else if size <=? 65536 then 1024
  else 8192.


(** ** Pointers *)

Abbreviation ptr := Z.
Definition nullptr : ptr := 0.

(** ** Span *)

Record Span : Type := mkSpan {
  _pageId : Z;
  _nPage : Z;
  _next : ptr;
  _prev : ptr;
  _freeList : ptr;
  _useCount : Z;
  _objSize : Z
}.

(** [new Span]: the members with a default initialiser get it; [_pageId],
    [_nPage] and [_objSize] have none and hold whatever the caller of the
    model supplies. *)
Definition new_Span (pageId nPage objSize : Z) : Span :=
  {| _pageId := pageId; _nPage := nPage;
     _next := nullptr; _prev := nullptr; _freeList := nullptr;
     _useCount := 0; _objSize := objSize |}.

Definition with_next (s : Span) (v : ptr) : Span :=
  {| _pageId := _pageId s; _nPage := _nPage s;
     _next := v; _prev := _prev s; _freeList := _freeList s;
     _useCount := _useCount s; _objSize := _objSize s |}.

Definition with_prev (s : Span) (v : ptr) : Span :=
  {| _pageId := _pageId s; _nPage := _nPage s;
     _next := _next s; _prev := v; _freeList := _freeList s;
     _useCount := _useCount s; _objSize := _objSize s |}.

(** The [Span] objects that exist, by address. *)
Abbreviation heap := (gmap Z Span).

(** [p->...] as an rvalue *)
Definition span_at (h : heap) (p : ptr) : result Span :=
  match h !! p with
  | Some s => Ret s
  | None => Undefined
  end.

(** [p->_next = v] *)
Definition set_next (p v : ptr) (h : heap) : result heap :=
  s ← span_at h p; Ret (<[p := with_next s v]> h).

(** [p->_prev = v] *)
Definition set_prev (p v : ptr) (h : heap) : result heap :=
  s ← span_at h p; Ret (<[p := with_prev s v]> h).

Module SpanList.

(** The bucket lock [_mutex] plays no part in the sequential behaviour of
    the member functions and is left out. *)
Record t : Type := mk { _head : ptr }.

(** The constructor; [a] is the address [new Span] returns and [pageId],
    [nPage], [objSize] the indeterminate members of the new object. *)
Definition create (a : ptr) (pageId nPage objSize : Z) (h : heap)
  : result (t * heap) :=
  let h := <[a := new_Span pageId nPage objSize]> h in
  let l := {| _head := a |} in
  h ← set_next (_head l) (_head l) h;
  h ← set_prev (_head l) (_head l) h;
  Ret (l, h).

Definition Begin (l : t) (h : heap) : result ptr :=
  s ← span_at h (_head l); Ret (_next s).

Definition End (l : t) : ptr := _head l.

Definition Insert (l : t) (cur newspan : ptr) (h : heap) : result heap :=
  assert (negb (cur =? nullptr));;
  assert (negb (newspan =? nullptr));;
  c ← span_at h cur;
  let prev := _prev c in
  h ← set_next prev newspan h;
  h ← set_prev newspan prev h;
  h ← set_next newspan cur h;
  set_prev cur newspan h.

Definition Erase (l : t) (cur : ptr) (h : heap) : result heap :=
  assert (negb (cur =? nullptr));;
  assert (negb (cur =? _head l));;
  c ← span_at h cur;
  let prev := _prev c in
  c ← span_at h cur;
  let next := _next c in
  h ← set_next prev next h;
  set_prev next prev h.

Definition Empty (l : t) (h : heap) : result bool :=
  s ← span_at h (_head l); Ret (_next s =? _head l).

End SpanList.

(** The loop [for (cur = from; cur != stop; cur = cur->_next)], returning the
    spans visited; [fuel] bounds the number of iterations. *)
Fixpoint walk_next (fuel : nat) (h : heap) (stop cur : ptr) : option (list ptr) :=
  if cur =? stop then Some []
  else match fuel with
       | O => None
       | S fuel' =>
           match h !! cur with
           | Some s => cons cur <$> walk_next fuel' h stop (_next s)
           | None => None
           end
       end.

(** The same loop along [_prev]. *)
Fixpoint walk_prev (fuel : nat) (h : heap) (stop cur : ptr) : option (list ptr) :=
  if cur =? stop then Some []
  else match fuel with
       | O => None
       | S fuel' =>
           match h !! cur with
           | Some s => cons cur <$> walk_prev fuel' h stop (_prev s)
           | None => None
           end
       end.

(** Forward traversal [Begin() ... End()] of a list. *)
Definition traverse_next (fuel : nat) (l : SpanList.t) (h : heap)
  : option (list ptr) :=
  match SpanList.Begin l h with
  | Ret b => walk_next fuel h (SpanList.End l) b
  | _ => None
  end.

(** Backward traversal from [End()->_prev] down to [End()]. *)
Definition traverse_prev (fuel : nat) (l : SpanList.t) (h : heap)
  : option (list ptr) :=
  match h !! SpanList.End l with
  | Some s => walk_prev fuel h (SpanList.End l) (_prev s)
  | None => None
  end.

(** Sequences of list operations. *)
Inductive op : Type :=
| OpInsert (cur newspan : ptr)
| OpErase (cur : ptr).

Definition apply_op (l : SpanList.t) (o : op) (h : heap) : result heap :=
  match o with
  | OpInsert cur newspan => SpanList.Insert l cur newspan h
  | OpErase cur => SpanList.Erase l cur h
  end.

Fixpoint run_ops (l : SpanList.t) (ops : list op) (h : heap) : result heap :=
  match ops with
  | [] => Ret h
  | o :: ops' => h' ← apply_op l o h; run_ops l ops' h'
  end.

(** The spans linked into a list, in [_next] order from [Begin()]; this is
    how each operation changes them. *)
Fixpoint insert_before (cur newspan : ptr) (spans : list ptr) : list ptr :=
  match spans with
  | [] => [newspan]
  | x :: spans' =>
      if decide (x = cur) then newspan :: x :: spans'
      else x :: insert_before cur newspan spans'
  end.

Definition remove_span (cur : ptr) (spans : list ptr) : list ptr :=
  filter (fun x => x <> cur) spans.

Definition live_after (o : op) (spans : list ptr) : list ptr :=
  match o with
  | OpInsert cur newspan => insert_before cur newspan spans
  | OpErase cur => remove_span cur spans
  end.

(** An operation respects the ownership discipline of the list: [Insert]
    takes a position of the list ([End()] or a linked span) and a [Span]
    object that is not linked into the list; [Erase] takes a linked span. *)
Definition op_ok (h : heap) (l : SpanList.t) (spans : list ptr) (o : op) : Prop :=
  match o with
  | OpInsert cur newspan =>
      cur ∈ (SpanList.End l :: spans) ∧
      (newspan ∉ SpanList.End l :: spans) ∧
      is_Some (h !! newspan)
  | OpErase cur => cur ∈ spans
  end.

Fixpoint ops_ok (h : heap) (l : SpanList.t) (spans : list ptr) (ops : list op) : Prop :=
  match ops with
  | [] => True
  | o :: ops' => op_ok h l spans o ∧ ops_ok h l (live_after o spans) ops'
  end.

Fixpoint live_after_all (ops : list op) (spans : list ptr) : list ptr :=
  match ops with
  | [] => spans
  | o :: ops' => live_after_all ops' (live_after o spans)
  end.

(** The conditions on an operation that the two assertions of the source and
    "a position inside the list" express, and nothing more: [Insert] at
    [End()] or at a span reached from [Begin()], of a [Span] object that is
    not the sentinel; [Erase] of a [Span] object that is not the sentinel. *)
Definition op_asserted (fuel : nat) (h : heap) (l : SpanList.t) (o : op) : Prop :=
  match o with
  | OpInsert cur newspan =>
      (cur = SpanList.End l ∨
       ∃ spans, traverse_next fuel l h = Some spans ∧ cur ∈ spans) ∧
      is_Some (h !! newspan) ∧ newspan ≠ SpanList.End l
  | OpErase cur => is_Some (h !! cur) ∧ cur ≠ SpanList.End l
  end.

(** ** FreeList *)

(** The first word of every free object, by the object's address; an
    address without an entry holds no determinate value. *)
Abbreviation memory := (gmap Z Z).

(** [NextObj(obj)] read *)
Definition NextObj_get (obj : ptr) (m : memory) : result ptr :=
  if obj =? nullptr then Undefined
  else match m !! obj with
       | Some v => Ret v
       | None => Undefined
       end.

(** [NextObj(obj) = v] *)
Definition NextObj_set (obj v : ptr) (m : memory) : result memory :=
  if obj =? nullptr then Undefined else Ret (<[obj := v]> m).

Module FreeList.

Record t : Type := mk { _head : ptr; _maxSize : Z }.

(** The default member initialisers. *)
Definition create : t := {| _head := nullptr; _maxSize := 1 |}.

Definition Push (l : t) (obj : ptr) (m : memory) : result (t * memory) :=
  m ← NextObj_set obj (_head l) m;
  Ret ({| _head := obj; _maxSize := _maxSize l |}, m).

Definition PushRange (l : t) (start end_ : ptr) (m : memory) : result (t * memory) :=
  m ← NextObj_set end_ (_head l) m;
  Ret ({| _head := start; _maxSize := _maxSize l |}, m).

Definition Pop (l : t) (m : memory) : result (ptr * t) :=
  let obj := _head l in
  hd ← NextObj_get (_head l) m;
  Ret (obj, {| _head := hd; _maxSize := _maxSize l |}).

Definition Empty (l : t) : bool := _head l =? nullptr.

Definition MaxSize (l : t) : Z := _maxSize l.

End FreeList.

(** [Push] of every object of [objs], first to last. *)
Fixpoint push_all (objs : list ptr) (l : FreeList.t) (m : memory)
  : result (FreeList.t * memory) :=
  match objs with
  | [] => Ret (l, m)
  | obj :: objs' => r ← FreeList.Push l obj m; push_all objs' r.1 r.2
  end.

(** [n] calls of [Pop], with the objects returned, first to last. *)
Fixpoint pop_n (n : nat) (l : FreeList.t) (m : memory)
  : result (list ptr * FreeList.t) :=
  match n with
  | O => Ret ([], l)
  | S n' =>
      r ← FreeList.Pop l m;
      rest ← pop_n n' r.2 m;
      Ret (r.1 :: rest.1, rest.2)
  end.


(** [p] heads the chain of free objects [objs], each linked to the next
    through its first word, the last one to [nullptr]. *)
Fixpoint chain_of (m : memory) (p : ptr) (objs : list ptr) : Prop :=
  match objs with
  | [] => p = nullptr
  | o :: objs' =>
      p = o ∧ o ≠ nullptr ∧ ∃ v, m !! o = Some v ∧ chain_of m v objs'
  end.

(** ** Representation of a span list *)

(** The link members of the span at an address, if there is one. *)
Definition nxt (h : heap) (p : ptr) : option ptr := _next <$> h !! p.
Definition prv (h : heap) (p : ptr) : option ptr := _prev <$> h !! p.

(** [a] and [b] are neighbours: [a->_next == b] and [b->_prev == a]. *)
Definition link (h : heap) (a b : ptr) : Prop :=
  nxt h a = Some b ∧ prv h b = Some a.

(** [a], the spans of [l] and [z] are linked one to the next. *)
Fixpoint chain (h : heap) (a : ptr) (l : list ptr) (z : ptr) : Prop :=
  match l with
  | [] => link h a z
  | b :: l' => link h a b ∧ chain h b l' z
  end.

(** The heap holds the circular list of [l]: the sentinel, then [spans] in
    order, then the sentinel again, all different objects. *)
Definition dll (h : heap) (l : SpanList.t) (spans : list ptr) : Prop :=
  NoDup (SpanList.End l :: spans) ∧
  chain h (SpanList.End l) spans (SpanList.End l) ∧
  h !! nullptr = None.

(** The members of a span other than its two links. *)
Definition same_payload (s s' : Span) : Prop :=
  _pageId s' = _pageId s ∧ _nPage s' = _nPage s ∧
  _freeList s' = _freeList s ∧ _useCount s' = _useCount s ∧
  _objSize s' = _objSize s.

(** Every operation of a run passes [op_asserted] in the state it is
    applied to. *)
Fixpoint run_asserted (fuel : nat) (l : SpanList.t) (ops : list op) (h : heap)
  : Prop :=
  match ops with
  | [] => True
  | o :: ops' =>
      op_asserted fuel h l o ∧
      match apply_op l o h with
      | Ret h' => run_asserted fuel l ops' h'
      | _ => False
      end
  end.

(** A list of three spans, sentinel at address 1: 1 -> 2 -> 3 -> 1. *)
Definition three_spans : heap :=
  <[1 := mkSpan 0 0 2 3 nullptr 0 0]>
  (<[2 := mkSpan 10 1 3 1 nullptr 4 8]>
  (<[3 := mkSpan 20 2 1 2 nullptr 0 16]> ∅)).

(** Three [Span] objects, at addresses 2, 3 and 4, in no list. *)
Definition loose_spans : heap :=
  <[2 := new_Span 0 1 8]> (<[3 := new_Span 1 1 8]> (<[4 := new_Span 2 1 8]> ∅)).

(** Spans 2, 3 and 4 are appended and erased in turn, and span 2 is erased a
    second time at the end, when it is no longer in the list. *)
Definition stale_erase_ops : list op :=
  [OpInsert 1 2; OpInsert 1 3; OpErase 2; OpInsert 1 4; OpErase 3; OpErase 2].

(** Span 2 is appended twice. *)
Definition double_insert_ops : list op := [OpInsert 1 2; OpInsert 1 2].

(** The objects of [batch] are free objects linked one to the next through
    their first words: [NextObj(b_i) == b_(i+1)]; the first word of the last
    one is not constrained. *)
Fixpoint linked_batch (m : memory) (batch : list ptr) : Prop :=
  match batch with
  | [] => True
  | o :: rest =>
      o ≠ nullptr ∧
      match rest with
      | [] => True
      | o' :: _ => m !! o = Some o'
      end ∧
      linked_batch m rest
  end.

(** [p] heads the chain of [objs], whose last object is linked to [q]. *)
Fixpoint chain_seg (m : memory) (p : ptr) (objs : list ptr) (q : ptr) : Prop :=
  match objs with
  | [] => p = q
  | o :: objs' =>
      p = o ∧ o ≠ nullptr ∧ ∃ v, m !! o = Some v ∧ chain_seg m v objs' q
  end.

(** A batch of three free objects at 40, 48 and 56, linked in that order. *)
Definition batch_memory : memory := <[40 := 48]> (<[48 := 56]> ∅).

(** A free list holding the objects 16 and 24. *)
Definition two_object_memory : memory := <[16 := 24]> (<[24 := nullptr]> ∅).
Definition two_object_list : FreeList.t :=
  {| FreeList._head := 16; FreeList._maxSize := 4 |}.

(** The list of [three_spans] and a [Span] object at address 5 in no list. *)
Definition three_spans_and_one : heap :=
  <[5 := new_Span 30 1 8]> three_spans.

(** Two lists in one heap: sentinel 1 with the spans 2 and 3, and sentinel 10
    with the span 11. *)
Definition two_lists : heap :=
  <[10 := mkSpan 0 0 11 11 nullptr 0 0]>
  (<[11 := mkSpan 40 4 10 10 nullptr 0 32]> three_spans).

(** The spans a sequence of operations inserts. *)
Fixpoint inserted_spans (ops : list op) : list ptr :=
  match ops with
  | [] => []
  | OpInsert _ newspan :: ops' => newspan :: inserted_spans ops'
  | OpErase _ :: ops' => inserted_spans ops'
  end.

(** * Properties *)

(** ** Machine arithmetic *)

Lemma to_size_small z : 0 <= z < 2 ^ 64 -> to_size z = z.
Proof. intros H. unfold to_size, size_bits. now apply Z.mod_small. Qed.

Lemma to_int_small z : 0 <= z < 2 ^ 31 -> to_int z = z.
Proof.
  intros H. unfold to_int, int_bits. simpl Z.sub.
  rewrite Z.mod_small; lia.
Qed.

Lemma size_not_ones k :
  0 <= k -> size_not (Z.ones k) = Z.land (Z.lnot (Z.ones k)) (Z.ones 64).
Proof.
  intros Hk. unfold size_not, to_size, size_bits.
  now rewrite Z.land_ones by lia.
Qed.

(** With a power of two for [alignNum], the mask clears the low bits. *)
Lemma _RoundUp_pow2 bytes k :
  0 <= k -> 0 <= bytes -> bytes + 2 ^ k < 2 ^ 64 ->
  _RoundUp bytes (2 ^ k) = (bytes + 2 ^ k - 1) / 2 ^ k * 2 ^ k.
Proof.
  intros Hk Hb Hlt.
  assert (Hp : 0 < 2 ^ k) by (apply Z.pow_pos_nonneg; lia).
  unfold _RoundUp, size_and, size_add, size_sub.
  rewrite (to_size_small (bytes + 2 ^ k)) by lia.
  rewrite (to_size_small (bytes + 2 ^ k - 1)) by lia.
  rewrite (to_size_small (2 ^ k - 1)) by lia.
  replace (2 ^ k - 1) with (Z.ones k) by (rewrite Z.ones_equiv; lia).
  rewrite size_not_ones by lia.
  rewrite (Z.land_comm (Z.lnot _)), Z.land_assoc.
  rewrite (Z.land_ones (bytes + 2 ^ k - 1) 64) by lia.
  rewrite Z.mod_small by lia.
  rewrite <- Z.ldiff_land, Z.ldiff_ones_r by lia.
  now rewrite Z.shiftl_mul_pow2, Z.shiftr_div_pow2 by lia.
Qed.

Lemma RoundUp_closed size :
  1 <= size <= 262144 ->
  RoundUp size =
  Ret ((size + tier_align size - 1) / tier_align size * tier_align size).
Proof.
  intros H. unfold RoundUp, tier_align.
  change (8 * 1024) with 8192. change (64 * 1024) with 65536.
  change (256 * 1024) with 262144.
  repeat case_match; try lia; f_equal.
  - apply (_RoundUp_pow2 size 3); lia.
  - apply (_RoundUp_pow2 size 4); lia.
  - apply (_RoundUp_pow2 size 7); lia.
  - apply (_RoundUp_pow2 size 10); lia.
  - apply (_RoundUp_pow2 size 13); lia.
Qed.

Lemma tier_align_cases size :
  1 <= size <= 262144 ->
  (size <= 128 /\ tier_align size = 8) \/
  (128 < size <= 1024 /\ tier_align size = 16) \/
  (1024 < size <= 8192 /\ tier_align size = 128) \/
  (8192 < size <= 65536 /\ tier_align size = 1024) \/
  (65536 < size <= 262144 /\ tier_align size = 8192).
Proof. intros H. unfold tier_align. repeat case_match; lia. Qed.

Lemma NumMoveSize_closed size :
  1 <= size <= 262144 ->
  NumMoveSize size = Ret (Z.min 512 (Z.max 2 (262144 / size))).
Proof.
  intros H. unfold NumMoveSize, size_div, MAX_BYTES.
  change (256 * 1024) with 262144.
  destruct (0 <? size) eqn:E; [|lia]. simpl.
  assert (Hq : 0 <= 262144 / size <= 262144).
  { split; [apply Z.div_pos; lia|].
    apply Z.div_le_upper_bound; nia. }
  rewrite to_int_small by lia.
  destruct (262144 / size <? 2) eqn:E2.
  - destruct (512 <? 2) eqn:E3; [lia|]. rewrite to_size_small by lia.
    f_equal. lia.
  - destruct (512 <? 262144 / size) eqn:E3;
      rewrite to_size_small by lia; f_equal; lia.
Qed.

(** Removes every reduction to [size_t] whose argument is in range. *)
Ltac unwrap_size :=
  repeat match goal with
         | |- context [to_size ?x] => rewrite (to_size_small x) by lia
         end.

(** What [_Index] computes on the arguments [Index] passes to it. *)
Lemma _Index_closed bytes shift :
  1 <= shift < 31 -> 0 <= bytes < 2 ^ 32 ->
  _Index bytes shift = (bytes + 2 ^ shift - 1) / 2 ^ (shift - 1).
Proof.
  intros Hs Hb.
  assert (Hp : 0 < 2 ^ shift < 2 ^ 31).
  { split; [apply Z.pow_pos_nonneg; lia|apply Z.pow_lt_mono_r; lia]. }
  unfold _Index, size_shr, size_sub, size_add, int_shl.
  rewrite Z.shiftl_1_l, to_int_small by lia.
  rewrite (to_size_small (2 ^ shift)) by lia.
  rewrite (to_size_small (bytes + 2 ^ shift)) by lia.
  rewrite (to_size_small (bytes + 2 ^ shift - 1)) by lia.
  rewrite (to_size_small (shift - 1)) by lia.
  now rewrite Z.shiftr_div_pow2 by lia.
Qed.

(** The bucket index as the source computes it, tier by tier. *)
Lemma Index_closed bytes :
  1 <= bytes <= 262144 ->
  Index bytes =
  Ret (if bytes <=? 128 then (bytes + 7) / 4
       else if bytes <=? 1024 then (bytes - 128 + 15) / 8 + 16
       else if bytes <=? 8192 then (bytes - 1024 + 127) / 64 + 72
       else if bytes <=? 65536 then (bytes - 8192 + 1023) / 512 + 128
       else (bytes - 65536 + 8191) / 4096 + 184).
Proof.
  intros H. unfold Index, group, group_array.
  change (8 * 1024) with 8192. change (64 * 1024) with 65536.
  change (256 * 1024) with 262144. simpl nth.
  rewrite !(to_size_small 16), !(to_size_small 56) by lia.
  unfold size_add, size_sub.
  repeat case_match; try lia; f_equal.
  - rewrite _Index_closed by lia.
    change (2 ^ (3 - 1)) with 4. change (2 ^ 3) with 8.
    now replace (bytes + 8 - 1) with (bytes + 7) by lia.
  - rewrite (to_size_small (bytes - 128)) by lia.
    rewrite _Index_closed by lia.
    change (2 ^ (4 - 1)) with 8.
    assert (0 <= (bytes - 128 + 2 ^ 4 - 1) / 8 <= 1024)
      by (change (2 ^ 4) with 16; Z.div_mod_to_equations; lia).
    unwrap_size. change (2 ^ 4) with 16.
    now replace (bytes - 128 + 16 - 1) with (bytes - 128 + 15) by lia.
  - rewrite (to_size_small (bytes - 1024)) by lia.
    rewrite _Index_closed by lia.
    change (2 ^ (7 - 1)) with 64.
    assert (0 <= (bytes - 1024 + 2 ^ 7 - 1) / 64 <= 8192)
      by (change (2 ^ 7) with 128; Z.div_mod_to_equations; lia).
    unwrap_size. change (2 ^ 7) with 128.
    replace (bytes - 1024 + 128 - 1) with (bytes - 1024 + 127) by lia. lia.
  - rewrite (to_size_small (bytes - 8192)) by lia.
    rewrite _Index_closed by lia.
    change (2 ^ (10 - 1)) with 512.
    assert (0 <= (bytes - 8192 + 2 ^ 10 - 1) / 512 <= 65536)
      by (change (2 ^ 10) with 1024; Z.div_mod_to_equations; lia).
    unwrap_size. change (2 ^ 10) with 1024.
    replace (bytes - 8192 + 1024 - 1) with (bytes - 8192 + 1023) by lia. lia.
  - rewrite (to_size_small (bytes - 65536)) by lia.
    rewrite _Index_closed by lia.
    change (2 ^ (13 - 1)) with 4096.
    assert (0 <= (bytes - 65536 + 2 ^ 13 - 1) / 4096 <= 262144)
      by (change (2 ^ 13) with 8192; Z.div_mod_to_equations; lia).
    unwrap_size. change (2 ^ 13) with 8192.
    replace (bytes - 65536 + 8192 - 1) with (bytes - 65536 + 8191) by lia. lia.
Qed.

(** X9: inside one tier the index the source computes does grow with the
    request size. *)
Lemma Index_monotone_within_tier s1 s2 :
  1 <= s1 -> s1 <= s2 -> s2 <= 262144 -> tier_align s1 = tier_align s2 ->
  exists i1 i2, Index s1 = Ret i1 /\ Index s2 = Ret i2 /\ i1 <= i2.
Proof.
  intros H1 H12 H2 Ht. do 2 eexists.
  split; [apply Index_closed; lia|]. split; [apply Index_closed; lia|].
  unfold tier_align in Ht.
  repeat case_match; try lia; Z.div_mod_to_equations; lia.
Qed.


(** ** SizeClass: the claims *)

(** C1 (the source departs from it): [Index] leaves the bucket array.  The
    last request size of the first tier, 128, gets index 33 where the layout
    comment of the class gives the tier the buckets [0,16), and the largest
    request size, 262144, gets index 233, past [NFREELIST = 208]. *)
Theorem Index_exceeds_NFREELIST :
  Index 128 = Ret 33 /\ Index 262144 = Ret 233 /\ NFREELIST <= 233.
Proof. repeat split. vm_compute. discriminate. Qed.

(** C2 (the source departs from it): [Index] is not monotonic across the
    boundary of the first two tiers: [Index 128 = 33] and [Index 129 = 18]. *)
Theorem Index_not_monotonic_across_tiers :
  Index 128 = Ret 33 /\ Index 129 = Ret 18 /\ 128 <= 129 /\ ~ 33 <= 18.
Proof. repeat split; lia. Qed.

(** C3 (the source departs from it): [RoundUp 7] is 8, and [Index 7] is 3,
    not the bucket 0 that the comment above [Index] announces. *)
Theorem RoundUp_7_Index_7 :
  RoundUp 7 = Ret 8 /\ Index 7 = Ret 3.
Proof. split; reflexivity. Qed.

(** C4: for every request size in [1, 262144], [RoundUp] returns a size
    that is at least the request and exceeds it by less than the alignment
    of the request's tier (8, 16, 128, 1024, 8192). *)
Theorem RoundUp_bounds size :
  1 <= size <= 262144 ->
  exists r, RoundUp size = Ret r /\ r >= size /\ r - size < tier_align size.
Proof.
  intros H. eexists. split; [now apply RoundUp_closed|].
  destruct (tier_align_cases size H) as [[? ->]|[[? ->]|[[? ->]|[[? ->]|[? ->]]]]];
    Z.div_mod_to_equations; lia.
Qed.

Lemma RoundUp_bounds_witness :
  1 <= 129 <= 262144 /\
  exists r, RoundUp 129 = Ret r /\ r >= 129 /\ r - 129 < tier_align 129.
Proof. split; [lia | apply (RoundUp_bounds 129); lia]. Defined.

(** C6: for every object size in [1, 262144], [NumMoveSize] lies in
    [2, 512]; it does not increase when the size increases; and
    [NumMoveSize 512 = 512]. *)
Theorem NumMoveSize_bounds_antitone :
  (forall size, 1 <= size <= 262144 ->
     exists n, NumMoveSize size = Ret n /\ 2 <= n <= 512) /\
  (forall s1 s2, 1 <= s1 -> s1 <= s2 -> s2 <= 262144 ->
     exists n1 n2, NumMoveSize s1 = Ret n1 /\ NumMoveSize s2 = Ret n2 /\ n2 <= n1) /\
  NumMoveSize 512 = Ret 512.
Proof.
  split; [|split].
  - intros size H. eexists. split; [now apply NumMoveSize_closed|]. lia.
  - intros s1 s2 H1 H12 H2. do 2 eexists.
    split; [apply NumMoveSize_closed; lia|].
    split; [apply NumMoveSize_closed; lia|].
    assert (262144 / s2 <= 262144 / s1) by (apply Z.div_le_compat_l; lia).
    lia.
  - reflexivity.
Qed.

Lemma NumMoveSize_bounds_antitone_witness :
  (exists n, NumMoveSize 1000 = Ret n /\ 2 <= n <= 512) /\
  (exists n1 n2, NumMoveSize 600 = Ret n1 /\ NumMoveSize 70000 = Ret n2 /\ n2 <= n1).
Proof.
  split.
  - apply (proj1 NumMoveSize_bounds_antitone 1000); lia.
  - apply (proj1 (proj2 NumMoveSize_bounds_antitone) 600 70000); lia.
Defined.

(** C9: [RoundUp] is idempotent on [1, 262144]: rounding an aligned size
    again returns it. *)
Theorem RoundUp_idempotent size :
  1 <= size <= 262144 ->
  exists r, RoundUp size = Ret r /\ RoundUp r = Ret r.
Proof.
  intros H. eexists. split; [now apply RoundUp_closed|].
  destruct (tier_align_cases size H) as [[? E]|[[? E]|[[? E]|[[? E]|[? E]]]]];
    rewrite E.
  all: match goal with |- RoundUp ?r = _ =>
         assert (Hr : size <= r /\ r <= 262144 /\ tier_align r = tier_align size)
       end.
  all: try (rewrite E; unfold tier_align; repeat case_match;
            Z.div_mod_to_equations; lia).
  all: destruct Hr as (Hr1 & Hr2 & Hr3).
  all: rewrite RoundUp_closed by lia; rewrite Hr3, E; f_equal;
       Z.div_mod_to_equations; lia.
Qed.

Lemma RoundUp_idempotent_witness :
  1 <= 1025 <= 262144 /\
  exists r, RoundUp 1025 = Ret r /\ RoundUp r = Ret r.
Proof. split; [lia | apply (RoundUp_idempotent 1025); lia]. Defined.

(** ** FreeList *)

Lemma chain_of_frame m p objs o v :
  o ∉ objs -> chain_of m p objs -> chain_of (<[o := v]> m) p objs.
Proof.
  revert p. induction objs as [|x objs IH]; intros p Hni Hc; [exact Hc|].
  destruct Hc as (-> & Hnz & w & Hw & Hc).
  apply not_elem_of_cons in Hni as [Hne Hni].
  simpl. repeat split; try done.
  exists w. split; [by rewrite lookup_insert_ne|]. by apply IH.
Qed.

Lemma chain_of_Empty m l objs :
  chain_of m (FreeList._head l) objs ->
  FreeList.Empty l = bool_decide (objs = []).
Proof.
  unfold FreeList.Empty. destruct objs as [|o objs]; simpl.
  - intros ->. reflexivity.
  - intros (-> & Hnz & _). by apply Z.eqb_neq.
Qed.

Lemma Push_chain m l objs obj :
  obj ≠ nullptr -> obj ∉ objs -> chain_of m (FreeList._head l) objs ->
  exists l' m', FreeList.Push l obj m = Ret (l', m') /\
                chain_of m' (FreeList._head l') (obj :: objs).
Proof.
  intros Hnz Hni Hc. unfold FreeList.Push, NextObj_set.
  destruct (obj =? nullptr) eqn:E; [apply Z.eqb_eq in E; done|].
  do 2 eexists. split; [reflexivity|]. simpl.
  repeat split; try done.
  eexists. split; [apply lookup_insert_eq|]. by apply chain_of_frame.
Qed.

Lemma push_all_chain objs : forall m l old,
  NoDup (objs ++ old) -> (forall o, o ∈ objs -> o ≠ nullptr) ->
  chain_of m (FreeList._head l) old ->
  exists l' m', push_all objs l m = Ret (l', m') /\
                chain_of m' (FreeList._head l') (rev objs ++ old).
Proof.
  induction objs as [|o objs IH]; intros m l old Hnd Hnz Hc.
  - do 2 eexists. split; [reflexivity|exact Hc].
  - simpl in Hnd. apply NoDup_cons in Hnd as [Hni Hnd].
    destruct (Push_chain m l old o) as (l1 & m1 & HP & Hc1).
    + apply Hnz. left.
    + intros Hin. apply Hni. apply elem_of_app. by right.
    + exact Hc.
    + destruct (IH m1 l1 (o :: old)) as (l2 & m2 & HA & Hc2).
      * apply NoDup_app. apply NoDup_app in Hnd as (Hn1 & Hn2 & Hn3).
        split; [done|]. split.
        -- intros x Hx Hx'. apply elem_of_cons in Hx' as [->|Hx'].
           ++ apply Hni. apply elem_of_app. by left.
           ++ by apply (Hn2 x).
        -- apply NoDup_cons. split; [|done].
           intros Hin. apply Hni. apply elem_of_app. by right.
      * intros x Hx. apply Hnz. by right.
      * exact Hc1.
      * exists l2, m2. split.
        -- simpl. rewrite HP. exact HA.
        -- simpl. rewrite <- app_assoc. exact Hc2.
Qed.

Lemma pop_n_chain m k : forall l objs,
  chain_of m (FreeList._head l) objs -> (k <= length objs)%nat ->
  exists l', pop_n k l m = Ret (take k objs, l') /\
             chain_of m (FreeList._head l') (drop k objs).
Proof.
  induction k as [|k IH]; intros l objs Hc Hk.
  - exists l. split; [reflexivity|]. by rewrite drop_0.
  - destruct objs as [|o objs]; [simpl in Hk; lia|].
    destruct Hc as (Hh & Hnz & v & Hv & Hc).
    destruct (IH {| FreeList._head := v; FreeList._maxSize := FreeList._maxSize l |} objs)
      as (l' & HP & Hc'); [exact Hc|simpl in Hk; lia|].
    exists l'. split; [|exact Hc'].
    simpl. unfold FreeList.Pop, NextObj_get. rewrite Hh.
    destruct (o =? nullptr) eqn:E; [apply Z.eqb_eq in E; done|].
    rewrite Hv. simpl. rewrite HP. reflexivity.
Qed.

(** C7: a fresh [FreeList] is empty; after [Push] of the first [k] of [N]
    distinct objects it is empty only if [k = 0]; after [Push] of all of
    them, [k] calls of [Pop] return the last [k] objects pushed, latest
    first, hence all [N] in reverse order for [k = N], and the list is
    empty again exactly when [k = N]. *)
Theorem FreeList_push_pop_LIFO (objs : list ptr) (m : memory) :
  NoDup objs -> (forall o, o ∈ objs -> o ≠ nullptr) ->
  FreeList.Empty FreeList.create = true /\
  (forall k, (k <= length objs)%nat ->
     exists l' m', push_all (take k objs) FreeList.create m = Ret (l', m') /\
                   FreeList.Empty l' = bool_decide (k = O)) /\
  (exists l' m', push_all objs FreeList.create m = Ret (l', m') /\
     forall k, (k <= length objs)%nat ->
       exists l'', pop_n k l' m' = Ret (take k (rev objs), l'') /\
                   FreeList.Empty l'' = bool_decide (k = length objs)).
Proof.
  intros Hnd Hnz. split; [reflexivity|]. split.
  - intros k Hk.
    destruct (push_all_chain (take k objs) m FreeList.create [])
      as (l' & m' & HP & Hc).
    + rewrite app_nil_r. rewrite <- (take_drop k objs) in Hnd.
      by apply NoDup_app in Hnd as (? & _).
    + intros o Ho. apply Hnz. by apply (subseteq_take k objs).
    + reflexivity.
    + exists l', m'. split; [exact HP|].
      rewrite (chain_of_Empty _ _ _ Hc), app_nil_r.
      apply bool_decide_ext. split.
      * intros E. apply (f_equal length) in E.
        rewrite length_rev, length_take in E. simpl in E. lia.
      * intros ->. reflexivity.
  - destruct (push_all_chain objs m FreeList.create [])
      as (l' & m' & HP & Hc).
    + by rewrite app_nil_r.
    + exact Hnz.
    + reflexivity.
    + rewrite app_nil_r in Hc. exists l', m'. split; [exact HP|].
      intros k Hk.
      destruct (pop_n_chain m' k l' (rev objs) Hc) as (l'' & HQ & Hc').
      * by rewrite length_rev.
      * exists l''. split; [exact HQ|].
        rewrite (chain_of_Empty _ _ _ Hc').
        apply bool_decide_ext. split.
        -- intros E. apply (f_equal length) in E.
           rewrite length_drop, length_rev in E. simpl in E. lia.
        -- intros ->. apply drop_ge. by rewrite length_rev.
Qed.

Lemma FreeList_push_pop_LIFO_witness :
  exists l' m', push_all [24; 8; 16] FreeList.create ∅ = Ret (l', m') /\
    forall k, (k <= 3)%nat ->
      exists l'', pop_n k l' m' = Ret (take k [16; 8; 24], l'') /\
                  FreeList.Empty l'' = bool_decide (k = 3%nat).
Proof.
  apply (FreeList_push_pop_LIFO [24; 8; 16] ∅).
  - apply (bool_decide_unpack _). vm_compute. exact I.
  - intros o Ho. apply list_elem_of_In in Ho. simpl in Ho. unfold nullptr. lia.
Defined.

(** C5 (as the source has it): [Pop] contains no assertion.  On an empty
    [FreeList] it evaluates [NextObj(nullptr)], a read through the null
    pointer: the call has no defined behaviour, it neither fails an
    assertion nor returns an object. *)
Theorem Pop_empty_undefined (l : FreeList.t) (m : memory) :
  FreeList.Empty l = true -> FreeList.Pop l m = Undefined.
Proof.
  unfold FreeList.Empty, FreeList.Pop, NextObj_get. intros ->. reflexivity.
Qed.

Lemma Pop_empty_undefined_witness :
  FreeList.Empty FreeList.create = true /\
  FreeList.Pop FreeList.create ∅ = Undefined.
Proof.
  split; [reflexivity | apply (Pop_empty_undefined FreeList.create ∅); reflexivity].
Defined.

(** C5, the claim as stated fails: [Pop] on the fresh, empty [FreeList] is
    not a failed assertion. *)
Lemma Pop_empty_not_AssertFail :
  FreeList.Empty FreeList.create = true /\
  FreeList.Pop FreeList.create ∅ ≠ AssertFail.
Proof. split; [reflexivity | discriminate]. Qed.

(** ** SpanList: effect of the member functions on the heap *)

Lemma nxt_Some h p v : nxt h p = Some v <-> exists s, h !! p = Some s /\ _next s = v.
Proof.
  unfold nxt. destruct (h !! p) as [s|]; simpl; split.
  - intros [= <-]. by exists s.
  - by intros (s' & [= <-] & <-).
  - done.
  - by intros (? & ? & _).
Qed.

Lemma prv_Some h p v : prv h p = Some v <-> exists s, h !! p = Some s /\ _prev s = v.
Proof.
  unfold prv. destruct (h !! p) as [s|]; simpl; split.
  - intros [= <-]. by exists s.
  - by intros (s' & [= <-] & <-).
  - done.
  - by intros (? & ? & _).
Qed.

Lemma nxt_alloc h p : is_Some (nxt h p) <-> is_Some (h !! p).
Proof. unfold nxt. by rewrite fmap_is_Some. Qed.

Lemma prv_alloc h p : is_Some (prv h p) <-> is_Some (h !! p).
Proof. unfold prv. by rewrite fmap_is_Some. Qed.

(** [p->_next = v] on an existing span changes that one member. *)
Lemma set_next_ok h p v :
  is_Some (h !! p) ->
  exists h', set_next p v h = Ret h' /\
    (forall x, nxt h' x = if decide (x = p) then Some v else nxt h x) /\
    (forall x, prv h' x = prv h x) /\
    (forall x, is_Some (h' !! x) <-> is_Some (h !! x)).
Proof.
  intros [s Hs]. unfold set_next, span_at. rewrite Hs.
  eexists. split; [reflexivity|]. split; [|split].
  - intros x. unfold nxt. case_decide as E.
    + subst x. by rewrite lookup_insert_eq.
    + by rewrite lookup_insert_ne.
  - intros x. unfold prv. destruct (decide (x = p)) as [->|E].
    + by rewrite lookup_insert_eq, Hs.
    + by rewrite lookup_insert_ne.
  - intros x. destruct (decide (x = p)) as [->|E].
    + rewrite lookup_insert_eq, Hs. split; eauto.
    + by rewrite lookup_insert_ne.
Qed.

Lemma set_prev_ok h p v :
  is_Some (h !! p) ->
  exists h', set_prev p v h = Ret h' /\
    (forall x, prv h' x = if decide (x = p) then Some v else prv h x) /\
    (forall x, nxt h' x = nxt h x) /\
    (forall x, is_Some (h' !! x) <-> is_Some (h !! x)).
Proof.
  intros [s Hs]. unfold set_prev, span_at. rewrite Hs.
  eexists. split; [reflexivity|]. split; [|split].
  - intros x. unfold prv. case_decide as E.
    + subst x. by rewrite lookup_insert_eq.
    + by rewrite lookup_insert_ne.
  - intros x. unfold nxt. destruct (decide (x = p)) as [->|E].
    + by rewrite lookup_insert_eq, Hs.
    + by rewrite lookup_insert_ne.
  - intros x. destruct (decide (x = p)) as [->|E].
    + rewrite lookup_insert_eq, Hs. split; eauto.
    + by rewrite lookup_insert_ne.
Qed.

Lemma assert_neq a b : a ≠ b -> assert (negb (a =? b)) = Ret tt.
Proof. intros H. apply Z.eqb_neq in H. by rewrite H. Qed.

(** [Insert] between a span [cur] and its predecessor. *)
Lemma Insert_ok h l cur newspan p :
  prv h cur = Some p -> is_Some (h !! p) -> is_Some (h !! newspan) ->
  cur ≠ nullptr -> newspan ≠ nullptr -> newspan ≠ cur -> newspan ≠ p ->
  exists h', SpanList.Insert l cur newspan h = Ret h' /\
    (forall x, nxt h' x = if decide (x = newspan) then Some cur
                          else if decide (x = p) then Some newspan
                          else nxt h x) /\
    (forall x, prv h' x = if decide (x = newspan) then Some p
                          else if decide (x = cur) then Some newspan
                          else prv h x) /\
    (forall x, is_Some (h' !! x) <-> is_Some (h !! x)).
Proof.
  intros Hp Hap Han Hc0 Hn0 Hnc Hnp.
  apply prv_Some in Hp as (c & Hc & Hcp).
  destruct (set_next_ok h p newspan Hap) as (h1 & E1 & N1 & P1 & A1).
  destruct (set_prev_ok h1 newspan p) as (h2 & E2 & P2 & N2 & A2);
    [by apply A1|].
  destruct (set_next_ok h2 newspan cur) as (h3 & E3 & N3 & P3 & A3);
    [by apply A2, A1|].
  destruct (set_prev_ok h3 cur newspan) as (h4 & E4 & P4 & N4 & A4);
    [apply A3, A2, A1; by rewrite Hc|].
  exists h4. unfold SpanList.Insert.
  rewrite !assert_neq by done. simpl.
  unfold span_at at 1. rewrite Hc. simpl. rewrite Hcp, E1. simpl.
  rewrite E2. simpl. rewrite E3. simpl. split; [exact E4|].
  split; [|split].
  - intros x. rewrite N4, N3, N2, N1. by repeat case_decide.
  - intros x. rewrite P4, P3, P2, P1. repeat case_decide; congruence.
  - intros x. by rewrite A4, A3, A2, A1.
Qed.

(** [Erase] of a span whose two neighbours exist. *)
Lemma Erase_ok h l cur p n :
  prv h cur = Some p -> nxt h cur = Some n ->
  is_Some (h !! p) -> is_Some (h !! n) ->
  cur ≠ nullptr -> cur ≠ SpanList._head l ->
  exists h', SpanList.Erase l cur h = Ret h' /\
    (forall x, nxt h' x = if decide (x = p) then Some n else nxt h x) /\
    (forall x, prv h' x = if decide (x = n) then Some p else prv h x) /\
    (forall x, is_Some (h' !! x) <-> is_Some (h !! x)).
Proof.
  intros Hp Hn Hap Han Hc0 Hch.
  apply prv_Some in Hp as (c & Hc & Hcp).
  apply nxt_Some in Hn as (c' & Hc' & Hcn).
  assert (c' = c) by congruence. subst c'.
  destruct (set_next_ok h p n Hap) as (h1 & E1 & N1 & P1 & A1).
  destruct (set_prev_ok h1 n p) as (h2 & E2 & P2 & N2 & A2);
    [by apply A1|].
  exists h2. unfold SpanList.Erase.
  rewrite !assert_neq by done. simpl.
  unfold span_at at 1. rewrite Hc. simpl.
  unfold span_at at 1. rewrite Hc. simpl.
  rewrite Hcp, Hcn, E1. simpl. split; [exact E2|].
  split; [|split].
  - intros x. by rewrite N2, N1.
  - intros x. by rewrite P2, P1.
  - intros x. by rewrite A2, A1.
Qed.

Lemma bind_Ret {A B : Type} (r : result A) (k : A -> result B) (b : B) :
  r ≫= k = Ret b -> exists a, r = Ret a /\ k a = Ret b.
Proof. destruct r as [a| |]; try discriminate. intros H. by exists a. Qed.

Lemma same_payload_refl s : same_payload s s.
Proof. by repeat split. Qed.

Lemma same_payload_trans s1 s2 s3 :
  same_payload s1 s2 -> same_payload s2 s3 -> same_payload s1 s3.
Proof.
  intros (?&?&?&?&?) (?&?&?&?&?). repeat split; congruence.
Qed.

Lemma Span_ext s s' :
  same_payload s s' -> _next s' = _next s -> _prev s' = _prev s -> s' = s.
Proof.
  destruct s, s'. simpl. intros (?&?&?&?&?) ? ?. simpl in *. congruence.
Qed.

Lemma set_next_payload h p v h' :
  set_next p v h = Ret h' ->
  forall x s, h !! x = Some s -> exists s', h' !! x = Some s' /\ same_payload s s'.
Proof.
  unfold set_next, span_at. destruct (h !! p) as [sp|] eqn:Hp; [|discriminate].
  intros [= <-] x s Hx. destruct (decide (x = p)) as [->|E].
  - rewrite lookup_insert_eq. eexists. split; [reflexivity|].
    assert (s = sp) by congruence. subst. by repeat split.
  - rewrite lookup_insert_ne by done. exists s. split; [done|].
    apply same_payload_refl.
Qed.

Lemma set_prev_payload h p v h' :
  set_prev p v h = Ret h' ->
  forall x s, h !! x = Some s -> exists s', h' !! x = Some s' /\ same_payload s s'.
Proof.
  unfold set_prev, span_at. destruct (h !! p) as [sp|] eqn:Hp; [|discriminate].
  intros [= <-] x s Hx. destruct (decide (x = p)) as [->|E].
  - rewrite lookup_insert_eq. eexists. split; [reflexivity|].
    assert (s = sp) by congruence. subst. by repeat split.
  - rewrite lookup_insert_ne by done. exists s. split; [done|].
    apply same_payload_refl.
Qed.

Lemma Erase_payload h l cur h' :
  SpanList.Erase l cur h = Ret h' ->
  forall x s, h !! x = Some s -> exists s', h' !! x = Some s' /\ same_payload s s'.
Proof.
  unfold SpanList.Erase. intros H.
  apply bind_Ret in H as (_ & _ & H). apply bind_Ret in H as (_ & _ & H).
  apply bind_Ret in H as (c & _ & H). apply bind_Ret in H as (c' & _ & H).
  apply bind_Ret in H as (h1 & H1 & H2).
  intros x s Hx.
  destruct (set_next_payload _ _ _ _ H1 x s Hx) as (s1 & Hx1 & Hp1).
  destruct (set_prev_payload _ _ _ _ H2 x s1 Hx1) as (s2 & Hx2 & Hp2).
  exists s2. split; [done|]. by eapply same_payload_trans.
Qed.

(** C10: [Erase(cur)] writes [_next] of the predecessor and [_prev] of the
    successor of [cur] and nothing else: the erased span keeps all its
    members, its two link members included; no [Span] object appears or
    disappears; every span other than the two neighbours is unchanged; and a
    neighbour keeps all its members apart from that one link. *)
Theorem Erase_frame (h : heap) (l : SpanList.t) (cur : ptr) (c : Span) :
  h !! cur = Some c ->
  is_Some (h !! _prev c) -> is_Some (h !! _next c) ->
  cur ≠ nullptr -> cur ≠ SpanList._head l ->
  exists h', SpanList.Erase l cur h = Ret h' /\
    h' !! cur = Some c /\
    nxt h' (_prev c) = Some (_next c) /\
    prv h' (_next c) = Some (_prev c) /\
    (forall x, x ≠ _prev c -> x ≠ _next c -> h' !! x = h !! x) /\
    (forall x s, h !! x = Some s ->
       exists s', h' !! x = Some s' /\ same_payload s s' /\
                  (x ≠ _prev c -> _next s' = _next s) /\
                  (x ≠ _next c -> _prev s' = _prev s)) /\
    (forall x, h !! x = None -> h' !! x = None).
Proof.
  intros Hc Hap Han Hc0 Hch.
  destruct (Erase_ok h l cur (_prev c) (_next c)) as (h' & HE & HN & HP & HA);
    try done.
  { apply prv_Some. by exists c. }
  { apply nxt_Some. by exists c. }
  assert (Hfield : forall x s, h !! x = Some s ->
            exists s', h' !! x = Some s' /\ same_payload s s' /\
                       (x ≠ _prev c -> _next s' = _next s) /\
                       (x ≠ _next c -> _prev s' = _prev s)).
  { intros x s Hx.
    destruct (Erase_payload _ _ _ _ HE x s Hx) as (s' & Hx' & Hpl).
    exists s'. split; [done|]. split; [done|]. split.
    - intros Hne. specialize (HN x). rewrite decide_False in HN by done.
      unfold nxt in HN. rewrite Hx', Hx in HN. simpl in HN. congruence.
    - intros Hne. specialize (HP x). rewrite decide_False in HP by done.
      unfold prv in HP. rewrite Hx', Hx in HP. simpl in HP. congruence. }
  assert (Hnone : forall x, h !! x = None -> h' !! x = None).
  { intros x Hx. apply eq_None_not_Some. rewrite HA, Hx. by intros [? ?]. }
  exists h'. split; [exact HE|]. split; [|split; [|split; [|split; [|split]]]].
  - destruct (Erase_payload _ _ _ _ HE cur c Hc) as (c' & Hc' & Hpl).
    rewrite Hc'. f_equal. apply Span_ext; [done| |].
    + specialize (HN cur). unfold nxt in HN. rewrite Hc', Hc in HN.
      simpl in HN. case_decide; congruence.
    + specialize (HP cur). unfold prv in HP. rewrite Hc', Hc in HP.
      simpl in HP. case_decide; congruence.
  - rewrite HN. by rewrite decide_True.
  - rewrite HP. by rewrite decide_True.
  - intros x Hxp Hxn. destruct (h !! x) as [s|] eqn:Hx.
    + destruct (Hfield x s Hx) as (s' & Hx' & Hpl & Hn' & Hp').
      rewrite Hx'. f_equal. apply Span_ext; auto.
    + by apply Hnone.
  - exact Hfield.
  - exact Hnone.
Qed.

Lemma Erase_frame_witness :
  exists h', SpanList.Erase (SpanList.mk 1) 2 three_spans = Ret h' /\
    h' !! 2 = Some (mkSpan 10 1 3 1 nullptr 4 8) /\
    nxt h' 1 = Some 3 /\ prv h' 3 = Some 1.
Proof.
  destruct (Erase_frame three_spans (SpanList.mk 1) 2 (mkSpan 10 1 3 1 nullptr 4 8))
    as (h' & HE & Hc & Hn & Hp & _).
  - reflexivity.
  - exists (mkSpan 0 0 2 3 nullptr 0 0). reflexivity.
  - exists (mkSpan 20 2 1 2 nullptr 0 16). reflexivity.
  - unfold nullptr. lia.
  - simpl. lia.
  - exists h'. repeat split; assumption.
Defined.

(** ** SpanList: the circular list *)

Lemma last_shift (l : list ptr) (x a : ptr) :
  List.last (x :: l) a = List.last l x.
Proof.
  revert x a. induction l as [|y l IH]; intros x a; [reflexivity|].
  change (List.last (y :: l) a = List.last (y :: l) x).
  by rewrite (IH y a), (IH y x).
Qed.

Lemma last_elem_of (l : list ptr) (a : ptr) : List.last l a ∈ a :: l.
Proof.
  revert a. induction l as [|y l IH]; intros a; [left|].
  rewrite last_shift. right. apply IH.
Qed.

Lemma hd_elem_of (l : list ptr) (z : ptr) : hd z l ∈ l ++ [z].
Proof. destruct l; simpl; left. Qed.

Lemma chain_app h a l1 x l2 z :
  chain h a (l1 ++ x :: l2) z <-> chain h a l1 x /\ chain h x l2 z.
Proof.
  revert a. induction l1 as [|y l1 IH]; intros a; simpl; [done|].
  rewrite IH. tauto.
Qed.

Lemma chain_hd h a l z : chain h a l z -> nxt h a = Some (hd z l).
Proof. destruct l; simpl; unfold link; tauto. Qed.

(** The [_prev] of a position is the span before it. *)
Lemma chain_prv h l1 : forall a l2 z,
  chain h a (l1 ++ l2) z -> prv h (hd z l2) = Some (List.last l1 a).
Proof.
  induction l1 as [|x l1 IH]; intros a l2 z Hc.
  - destruct l2; simpl in *; unfold link in Hc; tauto.
  - rewrite last_shift. apply IH. by destruct Hc.
Qed.

Lemma chain_nxt h a l1 cur l2 z :
  chain h a (l1 ++ cur :: l2) z -> nxt h cur = Some (hd z l2).
Proof. rewrite chain_app. intros [_ Hc]. by apply chain_hd in Hc. Qed.

Lemma chain_alloc h a l z x :
  chain h a l z -> x ∈ a :: l -> is_Some (h !! x).
Proof.
  revert a. induction l as [|b l IH]; intros a Hc Hx.
  - apply list_elem_of_singleton in Hx as ->. destruct Hc as [Hn _].
    apply nxt_alloc. by rewrite Hn.
  - destruct Hc as [[Hn _] Hc]. apply elem_of_cons in Hx as [->|Hx].
    + apply nxt_alloc. by rewrite Hn.
    + by apply (IH b).
Qed.

(** A chain only depends on [_next] of its sources and [_prev] of its
    targets. *)
Lemma chain_frame h h' l : forall a z,
  (forall x, x ∈ a :: l -> nxt h' x = nxt h x) ->
  (forall x, x ∈ l ++ [z] -> prv h' x = prv h x) ->
  chain h a l z -> chain h' a l z.
Proof.
  induction l as [|b l IH]; intros a z HN HP Hc.
  - destruct Hc as [Hn Hp]. split.
    + rewrite HN; [done|left].
    + rewrite HP; [done|left].
  - destruct Hc as [[Hn Hp] Hc]. split; [split|].
    + rewrite HN; [done|left].
    + rewrite HP; [done|left].
    + apply IH; [| |done].
      * intros x Hx. apply HN. by right.
      * intros x Hx. apply HP. by right.
Qed.

(** Linking [newspan] between [p] and [c] in a chain. *)
Lemma chain_insert h h' p c newspan l1 : forall a l2 z,
  chain h a (l1 ++ l2) z ->
  p = List.last l1 a -> c = hd z l2 ->
  NoDup (a :: l1 ++ l2) -> NoDup (l1 ++ l2 ++ [z]) ->
  newspan ∉ a :: l1 ++ l2 -> newspan ≠ z ->
  (forall x, nxt h' x = if decide (x = newspan) then Some c
                        else if decide (x = p) then Some newspan
                        else nxt h x) ->
  (forall x, prv h' x = if decide (x = newspan) then Some p
                        else if decide (x = c) then Some newspan
                        else prv h x) ->
  chain h' a (l1 ++ newspan :: l2) z.
Proof.
  induction l1 as [|x l1 IH]; intros a l2 z Hc Hp Hcur Hnd1 Hnd2 Hnew Hnz HN HP.
  - simpl in *. subst p.
    assert (Hna : newspan ≠ a) by (intros ->; apply Hnew; left).
    split; [split|].
    + rewrite HN, decide_False, decide_True; done.
    + rewrite HP, decide_True; done.
    + destruct l2 as [|c' l2]; simpl in *; subst c.
      * split.
        -- by rewrite HN, decide_True.
        -- rewrite HP, decide_False, decide_True; done.
      * destruct Hc as [_ Hc].
        assert (Hnc : newspan ≠ c') by (intros ->; apply Hnew; right; left).
        split; [split|].
        -- by rewrite HN, decide_True.
        -- rewrite HP, decide_False, decide_True; done.
        -- apply (chain_frame h); [| |done].
           ++ intros x Hx. rewrite HN.
              rewrite decide_False by (intros ->; apply Hnew; by right).
              rewrite decide_False; [done|].
              intros ->. by apply NoDup_cons in Hnd1 as [? _].
           ++ intros x Hx. rewrite HP.
              rewrite decide_False.
              ** rewrite decide_False; [done|].
                 intros ->. by apply NoDup_cons in Hnd2 as [? _].
              ** intros ->. apply elem_of_app in Hx as [Hx|Hx].
                 --- apply Hnew. right. by right.
                 --- by apply list_elem_of_singleton in Hx.
  - rewrite last_shift in Hp. simpl in Hc. destruct Hc as [[Hn Hpv] Hc].
    simpl in Hnd1, Hnd2.
    apply NoDup_cons in Hnd1 as [Ha Hnd1]. apply NoDup_cons in Hnd2 as [Hx Hnd2].
    apply not_elem_of_cons in Hnew as [Hna Hnew].
    assert (Hap : a ≠ p).
    { intros ->. apply Ha. rewrite Hp.
      pose proof (last_elem_of l1 x) as Hl.
      apply elem_of_cons in Hl as [Hl|Hl]; [rewrite Hl; left|].
      right. apply elem_of_app. by left. }
    assert (Hxc : x ≠ c).
    { intros ->. apply Hx. rewrite Hcur.
      apply elem_of_app. right. apply hd_elem_of. }
    assert (Hxn : x ≠ newspan) by (intros ->; apply Hnew; left).
    simpl. split; [split|].
    + by rewrite HN, !decide_False by done.
    + by rewrite HP, !decide_False by done.
    + by apply (IH x l2 z).
Qed.

(** Unlinking [cur], between [p] and [n], from a chain. *)
Lemma chain_erase h h' p n cur l1 : forall a l2 z,
  chain h a (l1 ++ cur :: l2) z ->
  p = List.last l1 a -> n = hd z l2 ->
  NoDup (a :: l1 ++ cur :: l2) -> NoDup (l1 ++ cur :: l2 ++ [z]) ->
  (forall x, nxt h' x = if decide (x = p) then Some n else nxt h x) ->
  (forall x, prv h' x = if decide (x = n) then Some p else prv h x) ->
  chain h' a (l1 ++ l2) z.
Proof.
  induction l1 as [|x l1 IH]; intros a l2 z Hc Hp Hn Hnd1 Hnd2 HN HP.
  - simpl in *. subst p. destruct Hc as [_ Hc].
    destruct l2 as [|n' l2]; simpl in *; subst n.
    + split.
      * by rewrite HN, decide_True.
      * by rewrite HP, decide_True.
    + destruct Hc as [_ Hc]. split; [split|].
      * by rewrite HN, decide_True.
      * by rewrite HP, decide_True.
      * apply (chain_frame h); [| |done].
        -- intros x Hx. rewrite HN, decide_False; [done|].
           intros ->. apply NoDup_cons in Hnd1 as [Ha _].
           apply Ha. by right.
        -- intros x Hx. rewrite HP, decide_False; [done|].
           intros ->. apply NoDup_cons in Hnd2 as [_ Hnd2].
           by apply NoDup_cons in Hnd2 as [? _].
  - rewrite last_shift in Hp. simpl in Hc. destruct Hc as [[Hnx Hpv] Hc].
    simpl in Hnd1, Hnd2.
    apply NoDup_cons in Hnd1 as [Ha Hnd1]. apply NoDup_cons in Hnd2 as [Hx Hnd2].
    assert (Hap : a ≠ p).
    { intros ->. apply Ha. rewrite Hp.
      pose proof (last_elem_of l1 x) as Hl.
      apply elem_of_cons in Hl as [Hl|Hl]; [rewrite Hl; left|].
      right. apply elem_of_app. by left. }
    assert (Hxn : x ≠ n).
    { intros ->. apply Hx. rewrite Hn.
      apply elem_of_app. right. right. apply hd_elem_of. }
    simpl. split; [split|].
    + by rewrite HN, decide_False by done.
    + by rewrite HP, decide_False by done.
    + by apply (IH x l2 z).
Qed.

Lemma insert_before_app cur newspan l1 l2 :
  cur ∉ l1 ->
  insert_before cur newspan (l1 ++ l2) = l1 ++ insert_before cur newspan l2.
Proof.
  induction l1 as [|x l1 IH]; intros Hni; [reflexivity|].
  apply not_elem_of_cons in Hni as [Hne Hni]. simpl.
  rewrite decide_False by done. by rewrite IH.
Qed.

(** A position of the list splits its spans in those before and those from
    the position on. *)
Lemma position_split (head cur newspan : ptr) (spans : list ptr) :
  NoDup (head :: spans) -> cur ∈ head :: spans ->
  exists l1 l2, spans = l1 ++ l2 /\ hd head l2 = cur /\
                insert_before cur newspan spans = l1 ++ newspan :: l2.
Proof.
  intros Hnd Hin. apply NoDup_cons in Hnd as [Hh Hnd].
  apply elem_of_cons in Hin as [->|Hin].
  - exists spans, []. rewrite app_nil_r. repeat split.
    rewrite <- (app_nil_r spans) at 1. by rewrite insert_before_app.
  - apply list_elem_of_split_l in Hin as (l1 & l2 & -> & Hni).
    exists l1, (cur :: l2). repeat split.
    rewrite insert_before_app by done. simpl. by rewrite decide_True.
Qed.

Lemma remove_span_notin cur (l : list ptr) : cur ∉ l -> remove_span cur l = l.
Proof.
  unfold remove_span. induction l as [|x l IH]; intros Hni; [reflexivity|].
  apply not_elem_of_cons in Hni as [Hne Hni].
  rewrite filter_cons_True by done. by rewrite IH.
Qed.

Lemma remove_span_app cur (l1 l2 : list ptr) :
  NoDup (l1 ++ cur :: l2) -> remove_span cur (l1 ++ cur :: l2) = l1 ++ l2.
Proof.
  intros Hnd. apply NoDup_app in Hnd as (_ & Hd & Hnd2).
  apply NoDup_cons in Hnd2 as [Hni2 _].
  unfold remove_span. rewrite filter_app, filter_cons_False by (by intros ?).
  fold (remove_span cur l1). fold (remove_span cur l2).
  rewrite !remove_span_notin; [done|done|].
  intros Hin. apply (Hd cur Hin). left.
Qed.

Lemma NoDup_rotate (head : ptr) (spans : list ptr) :
  NoDup (head :: spans) -> NoDup (spans ++ [head]).
Proof.
  intros Hnd. apply NoDup_cons in Hnd as [Hh Hnd].
  apply NoDup_app. split; [done|]. split.
  - intros x Hx Hx'. apply list_elem_of_singleton in Hx'. by subst.
  - apply NoDup_cons. split; [apply not_elem_of_nil|apply NoDup_nil_2].
Qed.

Lemma dll_nonnull h l spans x :
  dll h l spans -> x ∈ SpanList.End l :: spans -> x ≠ nullptr.
Proof.
  intros (_ & Hc & H0) Hx ->.
  destruct (chain_alloc _ _ _ _ _ Hc Hx) as [s Hs]. congruence.
Qed.

(** [Insert] keeps the list well formed and links the new span before the
    position. *)
Lemma dll_Insert h l spans cur newspan :
  dll h l spans ->
  cur ∈ SpanList.End l :: spans -> newspan ∉ SpanList.End l :: spans ->
  is_Some (h !! newspan) ->
  exists h', SpanList.Insert l cur newspan h = Ret h' /\
             dll h' l (insert_before cur newspan spans) /\
             (forall x, is_Some (h' !! x) <-> is_Some (h !! x)).
Proof.
  intros Hd Hcur Hnew Han. pose proof Hd as (Hnd & Hc & H0).
  destruct (position_split _ _ newspan _ Hnd Hcur) as (l1 & l2 & -> & Hhd & ->).
  pose proof (chain_prv _ _ _ _ _ Hc) as Hp. rewrite Hhd in Hp.
  assert (Hpin : List.last l1 (SpanList.End l) ∈ SpanList.End l :: l1 ++ l2).
  { pose proof (last_elem_of l1 (SpanList.End l)) as Hl.
    apply elem_of_cons in Hl as [Hl|Hl]; [rewrite Hl; left|].
    right. apply elem_of_app. by left. }
  destruct (Insert_ok h l cur newspan _ Hp) as (h' & HE & HN & HP & HA).
  - by apply (chain_alloc _ _ _ _ _ Hc).
  - done.
  - by apply (dll_nonnull h l (l1 ++ l2)).
  - intros ->. destruct Han as [? ?]. congruence.
  - by intros ->.
  - by intros ->.
  - exists h'. split; [done|]. split; [|done]. split; [|split].
    + apply not_elem_of_cons in Hnew as [Hne Hnew].
      apply not_elem_of_app in Hnew as [Hn1 Hn2].
      apply NoDup_cons in Hnd as [Hh Hnd].
      apply not_elem_of_app in Hh as [Hh1 Hh2].
      apply NoDup_app in Hnd as (Hnd1 & Hdis & Hnd2).
      apply NoDup_cons. split.
      * apply not_elem_of_app. split; [done|].
        apply not_elem_of_cons. split; [congruence|done].
      * apply NoDup_app. split; [done|]. split.
        -- intros x Hx. apply not_elem_of_cons. split; [by intros ->|].
           by apply Hdis.
        -- apply NoDup_cons. by split.
    + apply (chain_insert h h' (List.last l1 (SpanList.End l)) cur); try done.
      * apply (NoDup_rotate _ _) in Hnd. by rewrite <- app_assoc in Hnd.
      * intros ->. apply Hnew. left.
    + apply eq_None_not_Some. rewrite HA, H0. by intros [? ?].
Qed.

(** [Erase] of a linked span keeps the list well formed and unlinks the
    span. *)
Lemma dll_Erase h l spans cur :
  dll h l spans -> cur ∈ spans ->
  exists h', SpanList.Erase l cur h = Ret h' /\
             dll h' l (remove_span cur spans) /\
             (forall x, is_Some (h' !! x) <-> is_Some (h !! x)).
Proof.
  intros Hd Hcur. pose proof Hd as (Hnd & Hc & H0).
  apply list_elem_of_split in Hcur as (l1 & l2 & ->).
  pose proof (chain_prv _ _ _ _ _ Hc) as Hp. simpl in Hp.
  pose proof (chain_nxt _ _ _ _ _ _ Hc) as Hn.
  pose proof Hnd as Hnd'. apply NoDup_cons in Hnd' as [Hh Hnd'].
  rewrite remove_span_app by done.
  destruct (Erase_ok h l cur _ _ Hp Hn) as (h' & HE & HN & HP & HA).
  - apply (chain_alloc _ _ _ _ _ Hc).
    pose proof (last_elem_of l1 (SpanList.End l)) as Hl.
    apply elem_of_cons in Hl as [Hl|Hl]; [rewrite Hl; left|].
    right. apply elem_of_app. by left.
  - apply (chain_alloc _ _ _ _ _ Hc).
    pose proof (hd_elem_of l2 (SpanList.End l)) as Hl.
    apply elem_of_app in Hl as [Hl|Hl].
    + right. apply elem_of_app. right. by right.
    + apply list_elem_of_singleton in Hl. rewrite Hl. left.
  - apply (dll_nonnull h l (l1 ++ cur :: l2)); [done|].
    right. apply elem_of_app. right. left.
  - intros ->. apply Hh. apply elem_of_app. right. left.
  - exists h'. split; [done|]. split; [|done]. split; [|split].
    + apply not_elem_of_app in Hh as [Hh1 Hh2].
      apply not_elem_of_cons in Hh2 as [_ Hh2].
      apply NoDup_app in Hnd' as (Hnd1 & Hdis & Hnd2).
      apply NoDup_cons in Hnd2 as [_ Hnd2].
      apply NoDup_cons. split; [by apply not_elem_of_app|].
      apply NoDup_app. split; [done|]. split; [|done].
      intros x Hx Hx'. apply (Hdis x Hx). by right.
    + apply (chain_erase h h' (List.last l1 (SpanList.End l))
               (hd (SpanList.End l) l2) cur); try done.
      apply (NoDup_rotate _ _) in Hnd.
      rewrite <- app_assoc in Hnd. exact Hnd.
    + apply eq_None_not_Some. rewrite HA, H0. by intros [? ?].
Qed.

Lemma create_dll h0 a pageId nPage objSize :
  a ≠ nullptr -> h0 !! nullptr = None ->
  exists h1, SpanList.create a pageId nPage objSize h0 = Ret (SpanList.mk a, h1) /\
             dll h1 (SpanList.mk a) [] /\
             (forall x, is_Some (h1 !! x) <-> x = a \/ is_Some (h0 !! x)).
Proof.
  intros Ha H0.
  set (h := <[a := new_Span pageId nPage objSize]> h0).
  assert (Hal : is_Some (h !! a)) by (unfold h; rewrite lookup_insert_eq; eauto).
  destruct (set_next_ok h a a Hal) as (h1 & E1 & N1 & P1 & A1).
  destruct (set_prev_ok h1 a a) as (h2 & E2 & P2 & N2 & A2); [by apply A1|].
  exists h2. unfold SpanList.create. simpl. fold h. rewrite E1. simpl.
  rewrite E2. simpl. split; [done|]. split; [split; [|split]|].
  - simpl. apply NoDup_cons. split; [apply not_elem_of_nil|apply NoDup_nil_2].
  - simpl. split.
    + by rewrite N2, N1, decide_True.
    + by rewrite P2, decide_True.
  - apply eq_None_not_Some. rewrite A2, A1. unfold h.
    rewrite lookup_insert_ne by done. rewrite H0. by intros [? ?].
  - intros x. rewrite A2, A1. unfold h. destruct (decide (x = a)) as [->|E].
    + rewrite lookup_insert_eq. split; eauto.
    + rewrite lookup_insert_ne by done. split; [by right|]. by intros [?|?].
Qed.

(** The forward loop visits the spans of a chain, one per iteration. *)
Lemma walk_next_chain h z l : forall a,
  chain h a l z -> z ∉ l -> walk_next (length l) h z (hd z l) = Some l.
Proof.
  induction l as [|b l IH]; intros a Hc Hz.
  - simpl. by rewrite Z.eqb_refl.
  - apply not_elem_of_cons in Hz as [Hzb Hz]. destruct Hc as [_ Hc].
    simpl. destruct (b =? z) eqn:E; [apply Z.eqb_eq in E; congruence|].
    pose proof (chain_hd _ _ _ _ Hc) as Hn.
    apply nxt_Some in Hn as (s & -> & ->).
    by rewrite (IH b).
Qed.

(** The backward loop visits them in reverse. *)
Lemma walk_prev_chain h a l : forall z,
  chain h a l z -> a ∉ l ->
  walk_prev (length l) h a (List.last l a) = Some (rev l).
Proof.
  induction l as [|x l IH] using rev_ind; intros z Hc Ha.
  - simpl. by rewrite Z.eqb_refl.
  - apply not_elem_of_app in Ha as [Ha Hax].
    apply not_elem_of_cons in Hax as [Hax _].
    apply chain_app in Hc as [Hc _].
    rewrite List.last_last, length_app, Nat.add_1_r, rev_unit.
    simpl. destruct (x =? a) eqn:E; [apply Z.eqb_eq in E; congruence|].
    pose proof Hc as Hc'. rewrite <- (app_nil_r l) in Hc'.
    apply chain_prv in Hc'. simpl in Hc'.
    apply prv_Some in Hc' as (s & -> & ->).
    by rewrite (IH x).
Qed.

(** What the traversals and [Empty] return on a well-formed list. *)
Lemma dll_traverse h l spans :
  dll h l spans ->
  traverse_next (length spans) l h = Some spans /\
  traverse_prev (length spans) l h = Some (rev spans) /\
  SpanList.Empty l h = Ret (bool_decide (spans = [])) /\
  exists s, h !! SpanList.End l = Some s /\
    (SpanList.Empty l h = Ret true <->
     _next s = SpanList.End l /\ _prev s = SpanList.End l).
Proof.
  intros (Hnd & Hc & H0). apply NoDup_cons in Hnd as [Hh Hnd].
  pose proof (chain_hd _ _ _ _ Hc) as Hn.
  pose proof Hc as Hp. rewrite <- (app_nil_r spans) in Hp.
  apply chain_prv in Hp. simpl in Hp.
  apply nxt_Some in Hn as (s & Hs & Hsn).
  apply prv_Some in Hp as (s' & Hs' & Hsp).
  assert (s' = s) by congruence. subst s'.
  assert (HE : SpanList.Empty l h = Ret (bool_decide (spans = []))).
  { unfold SpanList.Empty, span_at. unfold SpanList.End in Hs. rewrite Hs.
    simpl. f_equal. rewrite Hsn. destruct spans as [|b spans]; simpl.
    - apply Z.eqb_refl.
    - apply Z.eqb_neq. intros ->. apply Hh. left. }
  split; [|split; [|split]].
  - unfold traverse_next, SpanList.Begin, span_at.
    unfold SpanList.End in Hs. rewrite Hs. simpl. rewrite Hsn.
    by apply (walk_next_chain h _ spans (SpanList.End l)).
  - unfold traverse_prev. rewrite Hs, Hsp.
    by apply (walk_prev_chain h _ spans (SpanList.End l)).
  - exact HE.
  - exists s. split; [done|]. rewrite HE. split.
    + intros [= Hb]. apply bool_decide_eq_true in Hb.
      subst spans. simpl in *. by split.
    + intros [Hsn' _]. f_equal. apply bool_decide_eq_true.
      destruct spans as [|b spans]; [done|]. simpl in Hsn.
      exfalso. apply Hh. rewrite <- Hsn', Hsn. left.
Qed.

Lemma run_ops_dll h1 l ops : forall h spans,
  dll h l spans -> (forall x, is_Some (h !! x) <-> is_Some (h1 !! x)) ->
  ops_ok h1 l spans ops ->
  exists h', run_ops l ops h = Ret h' /\ dll h' l (live_after_all ops spans).
Proof.
  induction ops as [|o ops IH]; intros h spans Hd HA Hok.
  - exists h. by split.
  - destruct Hok as [Ho Hok]. destruct o as [cur newspan|cur]; simpl in Ho.
    + destruct Ho as (Hcur & Hnew & Hal).
      destruct (dll_Insert h l spans cur newspan) as (h' & HE & Hd' & HA');
        [done|done|done|by apply HA|].
      destruct (IH h' _ Hd') as (h'' & HR & Hd''); [|done|].
      * intros x. by rewrite HA', HA.
      * exists h''. split; [|done]. simpl. by rewrite HE.
    + destruct (dll_Erase h l spans cur) as (h' & HE & Hd' & HA');
        [done|done|].
      destruct (IH h' _ Hd') as (h'' & HR & Hd''); [|done|].
      * intros x. by rewrite HA', HA.
      * exists h''. split; [|done]. simpl. by rewrite HE.
Qed.

(** C8 (as the source has it): from a freshly constructed [SpanList], after
    any sequence of [Insert] and [Erase] in which every [Insert] takes a
    position of the list ([End()] or a span linked in it) and a [Span]
    object that is not linked in it, and every [Erase] takes a span linked
    in it, the loop from [Begin()] along [_next] reaches [End()] after one
    step per live span, the loop from [End()] along [_prev] visits the same
    spans in reverse order, [Empty()] is true exactly when no span is live,
    and it is true if and only if [_next] and [_prev] of the sentinel both
    point to the sentinel. *)
Theorem SpanList_invariant (h0 : heap) (a : ptr) (pageId nPage objSize : Z)
    (ops : list op) :
  a ≠ nullptr -> h0 !! nullptr = None -> h0 !! a = None ->
  exists l h1, SpanList.create a pageId nPage objSize h0 = Ret (l, h1) /\
    (ops_ok h1 l [] ops ->
     exists h', run_ops l ops h1 = Ret h' /\
       let spans := live_after_all ops [] in
       traverse_next (length spans) l h' = Some spans /\
       traverse_prev (length spans) l h' = Some (rev spans) /\
       SpanList.Empty l h' = Ret (bool_decide (spans = [])) /\
       exists s, h' !! SpanList.End l = Some s /\
         (SpanList.Empty l h' = Ret true <->
          _next s = SpanList.End l /\ _prev s = SpanList.End l)).
Proof.
  intros Ha H0 Hfresh.
  destruct (create_dll h0 a pageId nPage objSize Ha H0) as (h1 & HC & Hd & _).
  exists (SpanList.mk a), h1. split; [exact HC|].
  intros Hok.
  destruct (run_ops_dll h1 (SpanList.mk a) ops h1 [] Hd) as (h' & HR & Hd');
    [done|done|].
  exists h'. split; [exact HR|]. by apply dll_traverse.
Qed.

Lemma SpanList_invariant_witness :
  exists l h1, SpanList.create 1 0 0 0 loose_spans = Ret (l, h1) /\
    exists h', run_ops l [OpInsert 1 2; OpInsert 2 3; OpInsert 1 4; OpErase 2] h1
               = Ret h' /\
      traverse_next 2 l h' = Some [3; 4] /\
      traverse_prev 2 l h' = Some [4; 3] /\
      SpanList.Empty l h' = Ret false.
Proof.
  destruct (SpanList_invariant loose_spans 1 0 0 0
              [OpInsert 1 2; OpInsert 2 3; OpInsert 1 4; OpErase 2])
    as (l & h1 & HC & H).
  - unfold nullptr. lia.
  - reflexivity.
  - reflexivity.
  - exists l, h1. split; [exact HC|].
    vm_compute in HC. injection HC as <- <-.
    destruct H as (h' & HR & Hn & Hp & He & _).
    + simpl. repeat split.
      all: try (rewrite list_elem_of_In; simpl; lia).
      all: try (eexists; vm_compute; reflexivity).
    + exists h'. repeat split; assumption.
Defined.

(** A span whose [_prev] points to itself traps the backward loop. *)
Lemma walk_prev_self_loop h stop cur s :
  cur ≠ stop -> h !! cur = Some s -> _prev s = cur ->
  forall fuel, walk_prev fuel h stop cur = None.
Proof.
  intros Hne Hs Hp fuel. apply Z.eqb_neq in Hne.
  induction fuel as [|fuel IH]; simpl; rewrite Hne; [done|].
  by rewrite Hs, Hp, IH.
Qed.

(** C8, the claim as stated fails, in two ways.  Every operation of
    [stale_erase_ops] and of [double_insert_ops] passes the two assertions of
    the source and inserts at [End()].
    - [stale_erase_ops] ends by erasing span 2 a second time, after it left
      the list.  Afterwards the forward loop visits spans 3 and 4 and the
      backward loop span 4 only: no list of live spans is traversed forwards
      by the one and backwards by the other.
    - [double_insert_ops] inserts span 2 while it is linked in the list.
      Afterwards the forward loop visits span 2 and the backward loop never
      reaches [End()]. *)
Lemma SpanList_invariant_needs_ownership :
  (exists l h1 h',
     SpanList.create 1 0 0 0 loose_spans = Ret (l, h1) /\
     run_asserted 3 l stale_erase_ops h1 /\
     run_ops l stale_erase_ops h1 = Ret h' /\
     traverse_next 2 l h' = Some [3; 4] /\
     traverse_prev 1 l h' = Some [4] /\
     forall spans,
       ~ (traverse_next (length spans) l h' = Some spans /\
          traverse_prev (length spans) l h' = Some (rev spans))) /\
  (exists l h1 h',
     SpanList.create 1 0 0 0 loose_spans = Ret (l, h1) /\
     run_asserted 3 l double_insert_ops h1 /\
     run_ops l double_insert_ops h1 = Ret h' /\
     traverse_next 1 l h' = Some [2] /\
     forall fuel, traverse_prev fuel l h' = None).
Proof.
  split.
  - eexists _, _, _. split; [vm_compute; reflexivity|].
    split; [|split; [vm_compute; reflexivity|]].
    + simpl. repeat split.
      all: try (left; reflexivity).
      all: try (eexists; vm_compute; reflexivity).
      all: try (unfold SpanList.End; simpl; lia).
    + split; [vm_compute; reflexivity|]. split; [vm_compute; reflexivity|].
      intros spans [Hn Hp].
      destruct spans as [|s1 [|s2 [|s3 spans]]]; vm_compute in Hn, Hp;
        discriminate.
  - eexists _, _, _. split; [vm_compute; reflexivity|].
    split; [|split; [vm_compute; reflexivity|]].
    + simpl. repeat split.
      all: try (left; reflexivity).
      all: try (eexists; vm_compute; reflexivity).
      all: try (unfold SpanList.End; simpl; lia).
    + split; [vm_compute; reflexivity|].
      intros fuel. unfold traverse_prev.
      destruct (@lookup _ _ _ _ _ _) as [s|] eqn:E; [|reflexivity].
      vm_compute in E. injection E as <-.
      eapply walk_prev_self_loop; [|vm_compute; reflexivity|reflexivity].
      simpl. lia.
Qed.

(** * Further properties of the source *)

(** ** SizeClass *)

Lemma NumMoveSize_closed_pos size :
  0 < size ->
  NumMoveSize size = Ret (Z.min 512 (Z.max 2 (262144 / size))).
Proof.
  intros H. unfold NumMoveSize, size_div, MAX_BYTES.
  change (256 * 1024) with 262144.
  destruct (0 <? size) eqn:E; [|lia]. simpl.
  assert (Hq : 0 <= 262144 / size <= 262144).
  { split; [apply Z.div_pos; lia|].
    apply Z.div_le_upper_bound; nia. }
  rewrite to_int_small by lia.
  destruct (262144 / size <? 2) eqn:E2.
  - destruct (512 <? 2) eqn:E3; [lia|]. rewrite to_size_small by lia.
    f_equal. lia.
  - destruct (512 <? 262144 / size) eqn:E3;
      rewrite to_size_small by lia; f_equal; lia.
Qed.

(** X1: [_RoundUp] with a power of two for [alignNum] returns the multiple of
    the alignment that is at least [bytes] and less than one alignment
    above it, as long as [bytes + alignNum] does not wrap. *)
Theorem _RoundUp_rounds_up bytes k :
  0 <= k -> 0 <= bytes -> bytes + 2 ^ k < 2 ^ 64 ->
  _RoundUp bytes (2 ^ k) mod 2 ^ k = 0 /\
  bytes <= _RoundUp bytes (2 ^ k) < bytes + 2 ^ k.
Proof.
  intros Hk Hb Hlt.
  assert (Hp : 0 < 2 ^ k) by (apply Z.pow_pos_nonneg; lia).
  rewrite _RoundUp_pow2 by lia. split; [apply Z.mod_mul; lia|].
  pose proof (Z.div_mod (bytes + 2 ^ k - 1) (2 ^ k)) as Hdm.
  pose proof (Z.mod_pos_bound (bytes + 2 ^ k - 1) (2 ^ k) Hp) as Hm.
  nia.
Qed.

Lemma _RoundUp_rounds_up_witness :
  _RoundUp 100 (2 ^ 5) mod 2 ^ 5 = 0 /\
  100 <= _RoundUp 100 (2 ^ 5) < 100 + 2 ^ 5.
Proof. apply (_RoundUp_rounds_up 100 5); lia. Defined.



(** X3: [RoundUp] is monotonic, across the tier boundaries too. *)
Theorem RoundUp_monotone s1 s2 :
  1 <= s1 -> s1 <= s2 -> s2 <= 262144 ->
  exists r1 r2, RoundUp s1 = Ret r1 /\ RoundUp s2 = Ret r2 /\ r1 <= r2.
Proof.
  intros H1 H12 H2. do 2 eexists.
  split; [apply RoundUp_closed; lia|]. split; [apply RoundUp_closed; lia|].
  destruct (tier_align_cases s1) as [[? ->]|[[? ->]|[[? ->]|[[? ->]|[? ->]]]]];
    [lia|..].
  all: destruct (tier_align_cases s2) as [[? ->]|[[? ->]|[[? ->]|[[? ->]|[? ->]]]]];
    [lia|..].
  all: Z.div_mod_to_equations; lia.
Qed.

Lemma RoundUp_monotone_witness :
  exists r1 r2, RoundUp 128 = Ret r1 /\ RoundUp 129 = Ret r2 /\ r1 <= r2.
Proof. apply (RoundUp_monotone 128 129); lia. Defined.

(** X4: Every size [RoundUp] returns is a multiple of 8, at least 8 and at most
    [MAX_BYTES]: a block of that size holds the link [NextObj] stores in its
    first word. *)
Theorem RoundUp_block_holds_link size :
  1 <= size <= 262144 ->
  exists r, RoundUp size = Ret r /\ 8 <= r <= MAX_BYTES /\ r mod 8 = 0.
Proof.
  intros H. eexists. split; [now apply RoundUp_closed|].
  unfold MAX_BYTES. change (256 * 1024) with 262144.
  destruct (tier_align_cases size H) as [[? ->]|[[? ->]|[[? ->]|[[? ->]|[? ->]]]]].
  all: Z.div_mod_to_equations; lia.
Qed.

Lemma RoundUp_block_holds_link_witness :
  exists r, RoundUp 1 = Ret r /\ 8 <= r <= MAX_BYTES /\ r mod 8 = 0.
Proof. apply (RoundUp_block_holds_link 1). lia. Defined.

(** X5: Above the first tier the bytes [RoundUp] adds are less than a ninth of
    the size returned (the "about 10%" of the comment of the class). *)
Theorem RoundUp_waste_below_ninth size :
  128 < size -> size <= 262144 ->
  exists r, RoundUp size = Ret r /\ 9 * (r - size) < r.
Proof.
  intros H1 H2. eexists. split; [apply RoundUp_closed; lia|].
  destruct (tier_align_cases size) as [[? ->]|[[? ->]|[[? ->]|[[? ->]|[? ->]]]]];
    [lia|..].
  all: Z.div_mod_to_equations; lia.
Qed.

Lemma RoundUp_waste_below_ninth_witness :
  exists r, RoundUp 129 = Ret r /\ 9 * (r - 129) < r.
Proof. apply (RoundUp_waste_below_ninth 129); lia. Defined.

(** X6: A request above [MAX_BYTES] fails the assertion of [RoundUp] and of
    [Index]; neither returns a size or an index for it. *)
Theorem RoundUp_Index_above_MAX_BYTES size :
  MAX_BYTES < size -> RoundUp size = AssertFail /\ Index size = AssertFail.
Proof.
  unfold MAX_BYTES, RoundUp, Index. intros H.
  change (256 * 1024) with 262144 in *. change (64 * 1024) with 65536.
  change (8 * 1024) with 8192.
  repeat case_match; try lia. by split.
Qed.

Lemma RoundUp_Index_above_MAX_BYTES_witness :
  RoundUp 262145 = AssertFail /\ Index 262145 = AssertFail.
Proof. apply (RoundUp_Index_above_MAX_BYTES 262145). reflexivity. Defined.

(** X7: [NumMoveSize] checks only that the size is not 0: it fails its assertion
    on 0, returns 512 for every size up to 512 and 2 for every size above
    half of [MAX_BYTES], sizes above [MAX_BYTES] included. *)
Theorem NumMoveSize_saturates :
  NumMoveSize 0 = AssertFail /\
  (forall size, 0 < size -> size <= 512 -> NumMoveSize size = Ret 512) /\
  (forall size, 131072 < size -> NumMoveSize size = Ret 2).
Proof.
  split; [reflexivity|]. split.
  - intros size H1 H2. rewrite NumMoveSize_closed_pos by lia. f_equal.
    assert (512 <= 262144 / size) by (apply Z.div_le_lower_bound; lia). lia.
  - intros size H. rewrite NumMoveSize_closed_pos by lia. f_equal.
    assert (262144 / size < 2) by (apply Z.div_lt_upper_bound; lia). lia.
Qed.

Lemma NumMoveSize_saturates_witness :
  NumMoveSize 500 = Ret 512 /\ NumMoveSize 300000 = Ret 2.
Proof.
  split.
  - apply (proj1 (proj2 NumMoveSize_saturates) 500); lia.
  - apply (proj2 (proj2 NumMoveSize_saturates) 300000); lia.
Defined.

(** X8: For an object size up to half of [MAX_BYTES], one batch of
    [NumMoveSize] objects takes at most [MAX_BYTES] bytes. *)
Theorem NumMoveSize_batch_within_MAX_BYTES size :
  1 <= size -> size <= 131072 ->
  exists n, NumMoveSize size = Ret n /\ n * size <= MAX_BYTES.
Proof.
  intros H1 H2. eexists. split; [apply NumMoveSize_closed_pos; lia|].
  unfold MAX_BYTES. change (256 * 1024) with 262144.
  assert (Hq : 2 <= 262144 / size) by (apply Z.div_le_lower_bound; lia).
  assert (Hm : size * (262144 / size) <= 262144) by (apply Z.mul_div_le; lia).
  nia.
Qed.

Lemma NumMoveSize_batch_within_MAX_BYTES_witness :
  exists n, NumMoveSize 3000 = Ret n /\ n * 3000 <= MAX_BYTES.
Proof. apply (NumMoveSize_batch_within_MAX_BYTES 3000); lia. Defined.

Lemma Index_monotone_within_tier_witness :
  exists i1 i2, Index 1025 = Ret i1 /\ Index 8192 = Ret i2 /\ i1 <= i2.
Proof. apply (Index_monotone_within_tier 1025 8192); try lia. reflexivity. Defined.


(** ** FreeList *)

Lemma FreeList_eta (l : FreeList.t) :
  {| FreeList._head := FreeList._head l; FreeList._maxSize := FreeList._maxSize l |} = l.
Proof. by destruct l. Qed.

(** Popping along a chain returns its objects in order and leaves the head
    at the end of the chain. *)
Lemma pop_n_seg m objs : forall l q,
  chain_seg m (FreeList._head l) objs q ->
  pop_n (length objs) l m =
  Ret (objs, {| FreeList._head := q; FreeList._maxSize := FreeList._maxSize l |}).
Proof.
  induction objs as [|o objs IH]; intros l q Hc.
  - simpl in *. by rewrite <- Hc, FreeList_eta.
  - destruct Hc as (Hh & Hnz & v & Hv & Hc).
    simpl. unfold FreeList.Pop, NextObj_get. rewrite Hh.
    destruct (o =? nullptr) eqn:E; [apply Z.eqb_eq in E; done|].
    rewrite Hv. simpl.
    by rewrite (IH {| FreeList._head := v; FreeList._maxSize := FreeList._maxSize l |} q).
Qed.

Lemma last_elem_of_nonempty (l : list ptr) (d : ptr) :
  l ≠ [] -> List.last l d ∈ l.
Proof.
  destruct l as [|x l]; [done|]. intros _. rewrite last_shift.
  apply last_elem_of.
Qed.

Lemma linked_batch_seg m v : forall batch,
  batch ≠ [] -> NoDup batch -> linked_batch m batch ->
  chain_seg (<[List.last batch nullptr := v]> m) (hd nullptr batch) batch v.
Proof.
  induction batch as [|o batch IH]; intros Hne Hnd Hl; [done|].
  destruct Hl as (Hnz & Hnext & Hl). apply NoDup_cons in Hnd as [Hni Hnd].
  destruct batch as [|o' batch].
  - simpl. repeat split; try done. exists v. split; [apply lookup_insert_eq|done].
  - change (List.last (o :: o' :: batch) nullptr) with (List.last (o' :: batch) nullptr).
    simpl hd. split; [done|]. split; [done|]. exists o'. split.
    + rewrite lookup_insert_ne; [done|].
      intros E. apply Hni. rewrite <- E. by apply last_elem_of_nonempty.
    + by apply IH.
Qed.

Lemma linked_batch_nonnull m batch x :
  linked_batch m batch -> x ∈ batch -> x ≠ nullptr.
Proof.
  induction batch as [|o batch IH]; intros Hl Hx.
  - by apply elem_of_nil in Hx.
  - destruct Hl as (Hnz & _ & Hl).
    apply elem_of_cons in Hx as [->|Hx]; [done|by apply IH].
Qed.

Lemma push_all_maxSize objs : forall l m l' m',
  push_all objs l m = Ret (l', m') ->
  FreeList._maxSize l' = FreeList._maxSize l.
Proof.
  induction objs as [|o objs IH]; intros l m l' m' H.
  - by injection H as <- <-.
  - simpl in H. apply bind_Ret in H as ([l1 m1] & HP & H).
    apply IH in H. simpl in H. rewrite H.
    unfold FreeList.Push in HP. apply bind_Ret in HP as (m0 & _ & HP).
    by injection HP as <- <-.
Qed.

Lemma pop_n_maxSize m n : forall l objs l',
  pop_n n l m = Ret (objs, l') ->
  FreeList._maxSize l' = FreeList._maxSize l.
Proof.
  induction n as [|n IH]; intros l objs l' H.
  - by injection H as <- <-.
  - simpl in H. apply bind_Ret in H as ([o l1] & HP & H).
    apply bind_Ret in H as ([objs' l2] & HR & H).
    injection H as <- <-. apply IH in HR. simpl in HR. rewrite HR.
    unfold FreeList.Pop in HP. apply bind_Ret in HP as (v & _ & HP).
    by injection HP as <- <-.
Qed.

(** X11: [Pop] undoes [Push]: after [Push(obj)], [Pop] returns [obj] and leaves
    the list object as it was before the [Push]; [Push] has written the
    first word of [obj] only. *)
Theorem Push_Pop_roundtrip (l : FreeList.t) (obj : ptr) (m : memory) :
  obj ≠ nullptr ->
  exists l' m', FreeList.Push l obj m = Ret (l', m') /\
    FreeList.Empty l' = false /\
    FreeList.Pop l' m' = Ret (obj, l) /\
    forall x, x ≠ obj -> m' !! x = m !! x.
Proof.
  intros Hnz. apply Z.eqb_neq in Hnz as Hnz'.
  unfold FreeList.Push, FreeList.Pop, FreeList.Empty, NextObj_set, NextObj_get.
  rewrite Hnz'. do 2 eexists. split; [reflexivity|]. simpl. rewrite Hnz'.
  split; [done|]. split.
  - rewrite lookup_insert_eq. simpl. by rewrite FreeList_eta.
  - intros x Hx. by rewrite lookup_insert_ne.
Qed.

Lemma Push_Pop_roundtrip_witness :
  exists l' m', FreeList.Push two_object_list 32 two_object_memory = Ret (l', m') /\
    FreeList.Empty l' = false /\
    FreeList.Pop l' m' = Ret (32, two_object_list) /\
    forall x, x ≠ 32 -> m' !! x = two_object_memory !! x.
Proof.
  apply (Push_Pop_roundtrip two_object_list 32 two_object_memory).
  unfold nullptr. lia.
Defined.

(** X12: [PushRange(start, end)] of a batch linked from [start] to [end] puts the
    whole batch in front: as many calls of [Pop] as the batch has objects
    return them from [start] to [end] and leave the list object as it was
    before; [PushRange] has written the first word of [end] only. *)
Theorem PushRange_pops_batch (l : FreeList.t) (m : memory) (batch : list ptr) :
  batch ≠ [] -> NoDup batch -> linked_batch m batch ->
  exists l' m',
    FreeList.PushRange l (hd nullptr batch) (List.last batch nullptr) m
    = Ret (l', m') /\
    FreeList.Empty l' = false /\
    pop_n (length batch) l' m' = Ret (batch, l) /\
    forall x, x ≠ List.last batch nullptr -> m' !! x = m !! x.
Proof.
  intros Hne Hnd Hl.
  assert (Hlast : List.last batch nullptr ≠ nullptr).
  { apply (linked_batch_nonnull m batch); [done|].
    by apply last_elem_of_nonempty. }
  assert (Hhd : hd nullptr batch ≠ nullptr).
  { apply (linked_batch_nonnull m batch); [done|].
    destruct batch; [done|left]. }
  unfold FreeList.PushRange, NextObj_set.
  apply Z.eqb_neq in Hlast as ->. do 2 eexists. split; [reflexivity|].
  split; [|split].
  - unfold FreeList.Empty. simpl. by apply Z.eqb_neq.
  - rewrite (pop_n_seg _ batch _ (FreeList._head l)).
    + simpl. by rewrite FreeList_eta.
    + simpl. by apply linked_batch_seg.
  - intros x Hx. by rewrite lookup_insert_ne.
Qed.

Lemma PushRange_pops_batch_witness :
  exists l' m',
    FreeList.PushRange two_object_list 40 56 batch_memory = Ret (l', m') /\
    FreeList.Empty l' = false /\
    pop_n 3 l' m' = Ret ([40; 48; 56], two_object_list) /\
    forall x, x ≠ 56 -> m' !! x = batch_memory !! x.
Proof.
  apply (PushRange_pops_batch two_object_list batch_memory [40; 48; 56]).
  - discriminate.
  - apply (bool_decide_unpack _). vm_compute. exact I.
  - simpl. unfold nullptr. repeat split; try lia; reflexivity.
Defined.

(** X13: A list that holds the chain [old] is a stack: after [Push] of distinct
    new objects, [k] calls of [Pop] return the objects pushed, latest first,
    and then those of [old]; the list is empty exactly when all of them are
    popped, and [MaxSize()] is the same throughout. *)
Theorem FreeList_stack (l : FreeList.t) (m : memory) (old objs : list ptr) :
  chain_of m (FreeList._head l) old ->
  NoDup (objs ++ old) -> (forall o, o ∈ objs -> o ≠ nullptr) ->
  exists l' m', push_all objs l m = Ret (l', m') /\
    FreeList.MaxSize l' = FreeList.MaxSize l /\
    forall k, (k <= length objs + length old)%nat ->
      exists l'', pop_n k l' m' = Ret (take k (rev objs ++ old), l'') /\
        FreeList.Empty l'' = bool_decide (k = (length objs + length old)%nat) /\
        FreeList.MaxSize l'' = FreeList.MaxSize l.
Proof.
  intros Hc Hnd Hnz.
  destruct (push_all_chain objs m l old Hnd Hnz Hc) as (l' & m' & HP & Hc').
  pose proof (push_all_maxSize _ _ _ _ _ HP) as Hm.
  exists l', m'. split; [done|]. split; [done|].
  intros k Hk.
  destruct (pop_n_chain m' k l' (rev objs ++ old) Hc') as (l'' & HQ & Hc'').
  { by rewrite length_app, length_rev. }
  exists l''. split; [done|]. split.
  - rewrite (chain_of_Empty _ _ _ Hc''). apply bool_decide_ext. split.
    + intros E. apply (f_equal length) in E.
      rewrite length_drop, length_app, length_rev in E. simpl in E. lia.
    + intros ->. apply drop_ge. by rewrite length_app, length_rev.
  - unfold FreeList.MaxSize. rewrite (pop_n_maxSize _ _ _ _ _ HQ). done.
Qed.

Lemma FreeList_stack_witness :
  exists l' m', push_all [32; 8] two_object_list two_object_memory = Ret (l', m') /\
    FreeList.MaxSize l' = 4 /\
    forall k, (k <= 4)%nat ->
      exists l'', pop_n k l' m' = Ret (take k [8; 32; 16; 24], l'') /\
        FreeList.Empty l'' = bool_decide (k = 4%nat) /\
        FreeList.MaxSize l'' = 4.
Proof.
  apply (FreeList_stack two_object_list two_object_memory [16; 24] [32; 8]).
  - simpl. unfold nullptr. repeat split; try lia.
    exists 24. split; [reflexivity|]. repeat split; try lia.
    exists 0. split; reflexivity.
  - apply (bool_decide_unpack _). vm_compute. exact I.
  - intros o Ho. apply list_elem_of_In in Ho. simpl in Ho. unfold nullptr. lia.
Defined.

(** X14: [Push] does not detect an object that is already in the list: pushing
    the same object twice in a row links it to itself, so that every later
    [Pop] returns that object and the list never becomes empty again. *)
Theorem Push_twice_cycles (l : FreeList.t) (obj : ptr) (m : memory) :
  obj ≠ nullptr ->
  exists l' m', push_all [obj; obj] l m = Ret (l', m') /\
    FreeList.Empty l' = false /\
    forall n, pop_n n l' m' = Ret (replicate n obj, l').
Proof.
  intros Hnz. apply Z.eqb_neq in Hnz as Hnz'.
  simpl. unfold FreeList.Push, NextObj_set. rewrite Hnz'. simpl.
  do 2 eexists. split; [reflexivity|]. split; [exact Hnz'|].
  induction n as [|n IH]; [reflexivity|].
  simpl. unfold FreeList.Pop at 1, NextObj_get. simpl. rewrite Hnz'.
  rewrite lookup_insert_eq. simpl. by rewrite IH.
Qed.

Lemma Push_twice_cycles_witness :
  exists l' m', push_all [16; 16] two_object_list two_object_memory = Ret (l', m') /\
    FreeList.Empty l' = false /\
    forall n, pop_n n l' m' = Ret (replicate n 16, l').
Proof.
  apply (Push_twice_cycles two_object_list 16 two_object_memory).
  unfold nullptr. lia.
Defined.

(** ** SpanList *)

Lemma bind_AssertFail {A B : Type} (r : result A) (k : A -> result B) :
  r ≫= k = AssertFail ->
  r = AssertFail \/ exists a, r = Ret a /\ k a = AssertFail.
Proof.
  destruct r as [a| |]; try discriminate; intros H.
  - right. by exists a.
  - by left.
Qed.

Lemma span_at_not_AssertFail h p : span_at h p ≠ AssertFail.
Proof. unfold span_at. by destruct (h !! p). Qed.

Lemma set_next_not_AssertFail p v h : set_next p v h ≠ AssertFail.
Proof. unfold set_next, span_at. by destruct (h !! p). Qed.

Lemma set_prev_not_AssertFail p v h : set_prev p v h ≠ AssertFail.
Proof. unfold set_prev, span_at. by destruct (h !! p). Qed.

Lemma assert_AssertFail b : assert b = AssertFail <-> b = false.
Proof. by destruct b. Qed.

(** X16: The assertions of [Erase] and [Insert] fire exactly on a null argument
    and, for [Erase], on the sentinel; no other argument and no state of
    the heap makes them fail an assertion. *)
Theorem SpanList_assertions (l : SpanList.t) (h : heap) (cur newspan : ptr) :
  (SpanList.Erase l cur h = AssertFail <->
   cur = nullptr \/ cur = SpanList.End l) /\
  (SpanList.Insert l cur newspan h = AssertFail <->
   cur = nullptr \/ newspan = nullptr).
Proof.
  split; split.
  - unfold SpanList.Erase. intros H.
    apply bind_AssertFail in H as [H|(_ & _ & H)].
    { apply assert_AssertFail, negb_false_iff, Z.eqb_eq in H. by left. }
    apply bind_AssertFail in H as [H|(_ & _ & H)].
    { apply assert_AssertFail, negb_false_iff, Z.eqb_eq in H. by right. }
    apply bind_AssertFail in H as [H|(c & _ & H)];
      [by apply span_at_not_AssertFail in H|].
    apply bind_AssertFail in H as [H|(c' & _ & H)];
      [by apply span_at_not_AssertFail in H|].
    apply bind_AssertFail in H as [H|(h1 & _ & H)];
      [by apply set_next_not_AssertFail in H|].
    by apply set_prev_not_AssertFail in H.
  - unfold SpanList.Erase, SpanList.End.
    destruct (cur =? nullptr) eqn:E1; [done|].
    intros [-> | ->]; [by rewrite Z.eqb_refl in E1|].
    simpl. by rewrite Z.eqb_refl.
  - unfold SpanList.Insert. intros H.
    apply bind_AssertFail in H as [H|(_ & _ & H)].
    { apply assert_AssertFail, negb_false_iff, Z.eqb_eq in H. by left. }
    apply bind_AssertFail in H as [H|(_ & _ & H)].
    { apply assert_AssertFail, negb_false_iff, Z.eqb_eq in H. by right. }
    apply bind_AssertFail in H as [H|(c & _ & H)];
      [by apply span_at_not_AssertFail in H|].
    apply bind_AssertFail in H as [H|(h1 & _ & H)];
      [by apply set_next_not_AssertFail in H|].
    apply bind_AssertFail in H as [H|(h2 & _ & H)];
      [by apply set_prev_not_AssertFail in H|].
    apply bind_AssertFail in H as [H|(h3 & _ & H)];
      [by apply set_next_not_AssertFail in H|].
    by apply set_prev_not_AssertFail in H.
  - unfold SpanList.Insert.
    destruct (cur =? nullptr) eqn:E1; [done|].
    intros [-> | ->]; [by rewrite Z.eqb_refl in E1|].
    reflexivity.
Qed.

Lemma Insert_payload h l cur newspan h' :
  SpanList.Insert l cur newspan h = Ret h' ->
  forall x s, h !! x = Some s -> exists s', h' !! x = Some s' /\ same_payload s s'.
Proof.
  unfold SpanList.Insert. intros H.
  apply bind_Ret in H as (_ & _ & H). apply bind_Ret in H as (_ & _ & H).
  apply bind_Ret in H as (c & _ & H).
  apply bind_Ret in H as (h1 & H1 & H). apply bind_Ret in H as (h2 & H2 & H).
  apply bind_Ret in H as (h3 & H3 & H4).
  intros x s Hx.
  destruct (set_next_payload _ _ _ _ H1 x s Hx) as (s1 & Hx1 & Hp1).
  destruct (set_prev_payload _ _ _ _ H2 x s1 Hx1) as (s2 & Hx2 & Hp2).
  destruct (set_next_payload _ _ _ _ H3 x s2 Hx2) as (s3 & Hx3 & Hp3).
  destruct (set_prev_payload _ _ _ _ H4 x s3 Hx3) as (s4 & Hx4 & Hp4).
  exists s4. split; [done|].
  eapply same_payload_trans; [|done].
  eapply same_payload_trans; [|done].
  by eapply same_payload_trans.
Qed.

(** Two heaps agree at an address when the links agree there, the other
    members are kept and no object appears. *)
Lemma lookup_eq_of_links (h h' : heap) x :
  nxt h' x = nxt h x -> prv h' x = prv h x ->
  (forall s, h !! x = Some s -> exists s', h' !! x = Some s' /\ same_payload s s') ->
  (h !! x = None -> h' !! x = None) ->
  h' !! x = h !! x.
Proof.
  intros HN HP Hpl Hnone. destruct (h !! x) as [s|] eqn:Hx.
  - destruct (Hpl s eq_refl) as (s' & Hx' & Hp).
    unfold nxt, prv in HN, HP. rewrite Hx', Hx in HN, HP. simpl in HN, HP.
    rewrite Hx'. f_equal. apply Span_ext; congruence.
  - by apply Hnone.
Qed.

Lemma alloc_None (h h' : heap) x :
  (is_Some (h' !! x) <-> is_Some (h !! x)) -> h !! x = None -> h' !! x = None.
Proof. intros HA Hx. apply eq_None_not_Some. rewrite HA, Hx. by intros [? ?]. Qed.

(** X17: [Insert(cur, newspan)] writes the two link members of [newspan],
    [_next] of the span before [cur] and [_prev] of [cur], and nothing else:
    no other member of any span changes and no [Span] object appears or
    disappears. *)
Theorem Insert_frame (h : heap) (l : SpanList.t) (cur newspan : ptr) (c s : Span) :
  h !! cur = Some c -> is_Some (h !! _prev c) -> h !! newspan = Some s ->
  cur ≠ nullptr -> newspan ≠ nullptr -> newspan ≠ cur -> newspan ≠ _prev c ->
  exists h', SpanList.Insert l cur newspan h = Ret h' /\
    h' !! newspan = Some (with_next (with_prev s (_prev c)) cur) /\
    nxt h' (_prev c) = Some newspan /\
    prv h' cur = Some newspan /\
    (forall x, x ≠ _prev c -> x ≠ cur -> x ≠ newspan -> h' !! x = h !! x) /\
    (forall x s0, h !! x = Some s0 ->
       exists s', h' !! x = Some s' /\ same_payload s0 s' /\
                  (x ≠ _prev c -> x ≠ newspan -> _next s' = _next s0) /\
                  (x ≠ cur -> x ≠ newspan -> _prev s' = _prev s0)) /\
    (forall x, h !! x = None -> h' !! x = None).
Proof.
  intros Hc Hap Hs Hc0 Hn0 Hnc Hnp.
  destruct (Insert_ok h l cur newspan (_prev c)) as (h' & HE & HN & HP & HA);
    try done.
  { apply prv_Some. by exists c. }
  pose proof (Insert_payload _ _ _ _ _ HE) as Hpl.
  exists h'. split; [exact HE|]. split; [|split; [|split; [|split; [|split]]]].
  - destruct (Hpl newspan s Hs) as (s' & Hs' & Hp'). rewrite Hs'. f_equal.
    specialize (HN newspan). specialize (HP newspan).
    rewrite decide_True in HN, HP by done.
    unfold nxt, prv in HN, HP. rewrite Hs' in HN, HP. simpl in HN, HP.
    apply Span_ext; simpl; [|congruence|congruence].
    destruct Hp' as (?&?&?&?&?). by repeat split.
  - rewrite HN, decide_False, decide_True; [done|done|]. by intros E.
  - rewrite HP, decide_False, decide_True; [done|done|]. by intros E.
  - intros x H1 H2 H3. apply lookup_eq_of_links.
    + by rewrite HN, !decide_False.
    + by rewrite HP, !decide_False.
    + intros s0 Hx. by apply Hpl.
    + by apply alloc_None.
  - intros x s0 Hx. destruct (Hpl x s0 Hx) as (s' & Hx' & Hp').
    exists s'. split; [done|]. split; [done|]. split.
    + intros H1 H2. specialize (HN x). rewrite !decide_False in HN by done.
      unfold nxt in HN. rewrite Hx', Hx in HN. simpl in HN. congruence.
    + intros H1 H2. specialize (HP x). rewrite !decide_False in HP by done.
      unfold prv in HP. rewrite Hx', Hx in HP. simpl in HP. congruence.
  - intros x. by apply alloc_None.
Qed.

Lemma Insert_frame_witness :
  exists h', SpanList.Insert (SpanList.mk 1) 3 5 three_spans_and_one = Ret h' /\
    h' !! 5 = Some (mkSpan 30 1 3 2 nullptr 0 8) /\
    nxt h' 2 = Some 5 /\ prv h' 3 = Some 5.
Proof.
  destruct (Insert_frame three_spans_and_one (SpanList.mk 1) 3 5
              (mkSpan 20 2 1 2 nullptr 0 16) (new_Span 30 1 8))
    as (h' & HE & Hn & Hnx & Hpv & _).
  - reflexivity.
  - exists (mkSpan 10 1 3 1 nullptr 4 8). reflexivity.
  - reflexivity.
  - unfold nullptr. lia.
  - unfold nullptr. lia.
  - lia.
  - simpl. lia.
  - exists h'. repeat split; assumption.
Defined.

(** X15: The constructor adds the sentinel, linked to itself in both directions,
    and changes no other [Span] object; the new list is empty and
    [Begin()] is [End()]. *)
Theorem create_fresh (a : ptr) (pageId nPage objSize : Z) (h0 : heap) :
  exists l h1, SpanList.create a pageId nPage objSize h0 = Ret (l, h1) /\
    SpanList.End l = a /\
    h1 !! a = Some (mkSpan pageId nPage a a nullptr 0 objSize) /\
    (forall x, x ≠ a -> h1 !! x = h0 !! x) /\
    SpanList.Empty l h1 = Ret true /\
    SpanList.Begin l h1 = Ret (SpanList.End l).
Proof.
  unfold SpanList.create, set_next, set_prev, span_at. simpl.
  rewrite lookup_insert_eq. simpl. rewrite lookup_insert_eq. simpl.
  do 2 eexists. split; [reflexivity|].
  unfold SpanList.Empty, SpanList.Begin, SpanList.End, span_at. simpl.
  rewrite !lookup_insert_eq. simpl. rewrite Z.eqb_refl.
  repeat split. intros x Hx. by rewrite !lookup_insert_ne.
Qed.

(** X18: [Erase] undoes [Insert]: when [cur] and the span before it point to
    each other, [Insert(cur, newspan)] followed by [Erase(newspan)] leaves
    every span other than [newspan] as it was; [newspan] keeps the links to
    the two neighbours it was given. *)
Theorem Insert_Erase_roundtrip (h : heap) (l : SpanList.t)
    (cur newspan : ptr) (c sp s : Span) :
  h !! cur = Some c -> h !! _prev c = Some sp -> _next sp = cur ->
  h !! newspan = Some s ->
  cur ≠ nullptr -> newspan ≠ nullptr -> newspan ≠ SpanList.End l ->
  newspan ≠ cur -> newspan ≠ _prev c ->
  exists h1 h2,
    SpanList.Insert l cur newspan h = Ret h1 /\
    SpanList.Erase l newspan h1 = Ret h2 /\
    (forall x, x ≠ newspan -> h2 !! x = h !! x) /\
    h2 !! newspan = Some (with_next (with_prev s (_prev c)) cur).
Proof.
  intros Hc Hsp Hspn Hs Hc0 Hn0 Hnh Hnc Hnp.
  destruct (Insert_ok h l cur newspan (_prev c)) as (h1 & HE1 & HN1 & HP1 & HA1);
    try done.
  { apply prv_Some. by exists c. }
  destruct (Erase_ok h1 l newspan (_prev c) cur) as (h2 & HE2 & HN2 & HP2 & HA2);
    try done.
  { by rewrite HP1, decide_True. }
  { by rewrite HN1, decide_True. }
  { apply HA1. by rewrite Hsp. }
  { apply HA1. by rewrite Hc. }
  pose proof (Insert_payload _ _ _ _ _ HE1) as Hpl1.
  pose proof (Erase_payload _ _ _ _ HE2) as Hpl2.
  assert (Hpl : forall x s0, h !! x = Some s0 ->
            exists s', h2 !! x = Some s' /\ same_payload s0 s').
  { intros x s0 Hx. destruct (Hpl1 x s0 Hx) as (s1 & Hx1 & Hp1).
    destruct (Hpl2 x s1 Hx1) as (s2 & Hx2 & Hp2).
    exists s2. split; [done|]. by eapply same_payload_trans. }
  exists h1, h2. split; [done|]. split; [done|]. split.
  - intros x Hx. apply lookup_eq_of_links.
    + rewrite HN2, HN1. rewrite (decide_False (P := x = newspan)) by done.
      case_decide as E; [|done]. subst x.
      symmetry. apply nxt_Some. by exists sp.
    + rewrite HP2, HP1. rewrite (decide_False (P := x = newspan)) by done.
      case_decide as E; [|done]. subst x.
      symmetry. apply prv_Some. by exists c.
    + intros s0 Hx0. by apply Hpl.
    + intros Hx0. eapply alloc_None; [|exact Hx0].
      by rewrite HA2, HA1.
  - destruct (Hpl newspan s Hs) as (s' & Hs' & Hp'). rewrite Hs'. f_equal.
    specialize (HN2 newspan). specialize (HP2 newspan).
    rewrite decide_False in HN2 by done. rewrite decide_False in HP2 by done.
    rewrite HN1, decide_True in HN2 by done.
    rewrite HP1, decide_True in HP2 by done.
    unfold nxt, prv in HN2, HP2. rewrite Hs' in HN2, HP2. simpl in HN2, HP2.
    apply Span_ext; simpl; [|congruence|congruence].
    destruct Hp' as (?&?&?&?&?). by repeat split.
Qed.

Lemma Insert_Erase_roundtrip_witness :
  exists h1 h2,
    SpanList.Insert (SpanList.mk 1) 3 5 three_spans_and_one = Ret h1 /\
    SpanList.Erase (SpanList.mk 1) 5 h1 = Ret h2 /\
    (forall x, x ≠ 5 -> h2 !! x = three_spans_and_one !! x) /\
    h2 !! 5 = Some (mkSpan 30 1 3 2 nullptr 0 8).
Proof.
  apply (Insert_Erase_roundtrip three_spans_and_one (SpanList.mk 1) 3 5
           (mkSpan 20 2 1 2 nullptr 0 16) (mkSpan 10 1 3 1 nullptr 4 8)
           (new_Span 30 1 8)).
  all: try reflexivity.
  all: unfold nullptr; simpl; lia.
Defined.

(** X19: [Insert] undoes [Erase]: when a span and its two neighbours point to
    each other, [Erase(cur)] followed by [Insert] of [cur] before its old
    successor restores the heap exactly. *)
Theorem Erase_Insert_roundtrip (h : heap) (l : SpanList.t) (cur : ptr)
    (c sp sn : Span) :
  h !! nullptr = None ->
  h !! cur = Some c ->
  h !! _prev c = Some sp -> _next sp = cur ->
  h !! _next c = Some sn -> _prev sn = cur ->
  cur ≠ SpanList.End l -> cur ≠ _next c ->
  exists h1 h2,
    SpanList.Erase l cur h = Ret h1 /\
    SpanList.Insert l (_next c) cur h1 = Ret h2 /\
    h2 = h.
Proof.
  intros H0 Hc Hsp Hspn Hsn Hsnp Hch Hcn.
  assert (Hc0 : cur ≠ nullptr) by (intros ->; congruence).
  assert (Hn0 : _next c ≠ nullptr) by (intros E; rewrite E in Hsn; congruence).
  assert (Hcp : cur ≠ _prev c).
  { intros E. rewrite <- E in Hsp. assert (sp = c) by congruence. subst sp.
    by apply Hcn. }
  destruct (Erase_ok h l cur (_prev c) (_next c)) as (h1 & HE1 & HN1 & HP1 & HA1);
    try done.
  { apply prv_Some. by exists c. }
  { apply nxt_Some. by exists c. }
  destruct (Insert_ok h1 l (_next c) cur (_prev c))
    as (h2 & HE2 & HN2 & HP2 & HA2); try done.
  { by rewrite HP1, decide_True. }
  { apply HA1. by rewrite Hsp. }
  { apply HA1. by rewrite Hc. }
  pose proof (Erase_payload _ _ _ _ HE1) as Hpl1.
  pose proof (Insert_payload _ _ _ _ _ HE2) as Hpl2.
  exists h1, h2. split; [done|]. split; [done|].
  apply map_eq. intros x. apply lookup_eq_of_links.
  - rewrite HN2, HN1. repeat case_decide; subst; symmetry.
    + apply nxt_Some. by exists c.
    + apply nxt_Some. by exists sp.
    + done.
  - rewrite HP2, HP1. repeat case_decide; subst; symmetry.
    + apply prv_Some. by exists c.
    + apply prv_Some. by exists sn.
    + done.
  - intros s0 Hx. destruct (Hpl1 x s0 Hx) as (s1 & Hx1 & Hp1).
    destruct (Hpl2 x s1 Hx1) as (s2 & Hx2 & Hp2).
    exists s2. split; [done|]. by eapply same_payload_trans.
  - intros Hx. eapply alloc_None; [|exact Hx]. by rewrite HA2, HA1.
Qed.

Lemma Erase_Insert_roundtrip_witness :
  exists h1 h2,
    SpanList.Erase (SpanList.mk 1) 2 three_spans = Ret h1 /\
    SpanList.Insert (SpanList.mk 1) 3 2 h1 = Ret h2 /\
    h2 = three_spans.
Proof.
  apply (Erase_Insert_roundtrip three_spans (SpanList.mk 1) 2
           (mkSpan 10 1 3 1 nullptr 4 8) (mkSpan 0 0 2 3 nullptr 0 0)
           (mkSpan 20 2 1 2 nullptr 0 16)).
  all: try reflexivity.
  all: simpl; lia.
Defined.

Lemma chain_last_nxt h l : forall a z,
  chain h a l z -> nxt h (List.last l a) = Some z.
Proof.
  induction l as [|x l IH]; intros a z Hc.
  - by destruct Hc.
  - rewrite last_shift. apply IH. by destruct Hc.
Qed.

Lemma chain_hd_prv h a l z : chain h a l z -> prv h (hd z l) = Some a.
Proof. intros Hc. by apply (chain_prv h [] a l z). Qed.

(** In a well-formed list every span and the sentinel have their two
    neighbours in the list, and the neighbours point back. *)
Lemma dll_neighbours h l spans x :
  dll h l spans -> x ∈ SpanList.End l :: spans ->
  exists p n, prv h x = Some p /\ nxt h x = Some n /\
    p ∈ SpanList.End l :: spans /\ n ∈ SpanList.End l :: spans /\
    nxt h p = Some x /\ prv h n = Some x.
Proof.
  intros (Hnd & Hc & H0) Hx.
  assert (Hlast : forall l1 l2, spans = l1 ++ l2 ->
            List.last l1 (SpanList.End l) ∈ SpanList.End l :: spans).
  { intros l1 l2 ->. pose proof (last_elem_of l1 (SpanList.End l)) as Hl.
    apply elem_of_cons in Hl as [Hl|Hl]; [rewrite Hl; left|].
    right. apply elem_of_app. by left. }
  assert (Hhd : forall l1 l2, spans = l1 ++ l2 ->
            hd (SpanList.End l) l2 ∈ SpanList.End l :: spans).
  { intros l1 l2 ->. pose proof (hd_elem_of l2 (SpanList.End l)) as Hl.
    apply elem_of_app in Hl as [Hl|Hl].
    - right. apply elem_of_app. by right.
    - apply list_elem_of_singleton in Hl. rewrite Hl. left. }
  apply elem_of_cons in Hx as [->|Hx].
  - exists (List.last spans (SpanList.End l)), (hd (SpanList.End l) spans).
    split; [|split; [|split; [|split; [|split]]]].
    + pose proof (chain_prv h spans (SpanList.End l) [] (SpanList.End l)) as Hp.
      rewrite app_nil_r in Hp.
      by apply Hp.
    + by apply chain_hd.
    + apply (Hlast spans []). by rewrite app_nil_r.
    + by apply (Hhd [] spans).
    + by apply chain_last_nxt.
    + by apply chain_hd_prv.
  - apply list_elem_of_split in Hx as (l1 & l2 & Hsp). subst spans.
    pose proof Hc as Hc'. apply chain_app in Hc' as [Hc1 Hc2].
    exists (List.last l1 (SpanList.End l)), (hd (SpanList.End l) l2).
    split; [|split; [|split; [|split; [|split]]]].
    + by apply (chain_prv h l1 (SpanList.End l) (x :: l2) (SpanList.End l)).
    + by apply chain_hd.
    + by apply (Hlast l1 (x :: l2)).
    + apply (Hhd (l1 ++ [x]) l2). by rewrite <- app_assoc.
    + by apply chain_last_nxt.
    + by apply chain_hd_prv.
Qed.

(** A well-formed list stays so when the links of its own spans are kept. *)
Lemma dll_frame h h' l spans :
  dll h l spans ->
  (forall x, x ∈ SpanList.End l :: spans ->
     nxt h' x = nxt h x /\ prv h' x = prv h x) ->
  h' !! nullptr = None ->
  dll h' l spans.
Proof.
  intros (Hnd & Hc & H0) Hsame H0'. split; [done|]. split; [|done].
  apply (chain_frame h); [| |done].
  - intros x Hx. by apply Hsame.
  - intros x Hx. apply Hsame. apply elem_of_app in Hx as [Hx|Hx].
    + by right.
    + apply list_elem_of_singleton in Hx. rewrite Hx. left.
Qed.

Lemma elem_of_insert_before cur newspan (spans : list ptr) y :
  y ∈ insert_before cur newspan spans -> y = newspan \/ y ∈ spans.
Proof.
  induction spans as [|x spans IH]; simpl.
  - intros Hy. apply list_elem_of_singleton in Hy. by left.
  - case_decide.
    + intros Hy. apply elem_of_cons in Hy as [->|Hy]; [by left|by right].
    + intros Hy. apply elem_of_cons in Hy as [->|Hy]; [right; left|].
      destruct (IH Hy) as [->|Hin]; [by left|right; by right].
Qed.

Lemma elem_of_remove_span cur (spans : list ptr) y :
  y ∈ remove_span cur spans -> y ∈ spans.
Proof. unfold remove_span. intros Hy. by apply list_elem_of_filter in Hy as [_ ?]. Qed.

(** One valid operation on a well-formed list: it returns, the list stays
    well formed, every [Span] object keeps its members other than the links,
    and the spans outside the list, the inserted one apart, are unchanged. *)
Lemma dll_step h l spans o :
  dll h l spans -> op_ok h l spans o ->
  exists h', apply_op l o h = Ret h' /\
    dll h' l (live_after o spans) /\
    (forall x, is_Some (h' !! x) <-> is_Some (h !! x)) /\
    (forall x s, h !! x = Some s ->
       exists s', h' !! x = Some s' /\ same_payload s s') /\
    (forall x, x ∉ SpanList.End l :: spans -> x ∉ inserted_spans [o] ->
       h' !! x = h !! x).
Proof.
  intros Hd Hok. destruct o as [cur newspan|cur]; simpl in Hok.
  - destruct Hok as (Hcur & Hnew & Hal).
    destruct (dll_Insert h l spans cur newspan Hd Hcur Hnew Hal)
      as (h' & HE & Hd' & HA).
    destruct (dll_neighbours h l spans cur Hd Hcur)
      as (p & n & Hp & _ & Hpin & _ & _ & _).
    pose proof Hd as (_ & Hc & H0).
    destruct (Insert_ok h l cur newspan p Hp) as (h'' & HE' & HN & HP & _).
    + by apply (chain_alloc _ _ _ _ _ Hc).
    + done.
    + by apply (dll_nonnull h l spans).
    + intros ->. destruct Hal as [? ?]. congruence.
    + by intros ->.
    + by intros ->.
    + assert (h'' = h') by congruence. subst h''.
      pose proof (Insert_payload _ _ _ _ _ HE) as Hpl.
      exists h'. split; [done|]. split; [done|]. split; [done|].
      split; [done|].
      intros x Hx Hxn. simpl in Hxn.
      apply not_elem_of_cons in Hxn as [Hxn _].
      apply lookup_eq_of_links.
      * rewrite HN, !decide_False; [done| |done]. by intros ->.
      * rewrite HP, !decide_False; [done| |done]. by intros ->.
      * intros s Hs. by apply Hpl.
      * by apply alloc_None.
  - destruct (dll_Erase h l spans cur Hd Hok) as (h' & HE & Hd' & HA).
    assert (Hcur : cur ∈ SpanList.End l :: spans) by (by right).
    destruct (dll_neighbours h l spans cur Hd Hcur)
      as (p & n & Hp & Hn & Hpin & Hnin & _ & _).
    pose proof Hd as (Hnd & Hc & H0).
    destruct (Erase_ok h l cur p n Hp Hn) as (h'' & HE' & HN & HP & _).
    + by apply (chain_alloc _ _ _ _ _ Hc).
    + by apply (chain_alloc _ _ _ _ _ Hc).
    + by apply (dll_nonnull h l spans).
    + intros ->. apply NoDup_cons in Hnd as [Hh _]. by apply Hh.
    + assert (h'' = h') by (simpl in HE; congruence). subst h''.
      pose proof (Erase_payload _ _ _ _ HE) as Hpl.
      exists h'. split; [done|]. split; [done|]. split; [done|].
      split; [done|].
      intros x Hx _. apply lookup_eq_of_links.
      * rewrite HN, decide_False; [done|]. by intros ->.
      * rewrite HP, decide_False; [done|]. by intros ->.
      * intros s Hs. by apply Hpl.
      * by apply alloc_None.
Qed.

Lemma live_after_subset l o (spans : list ptr) y :
  y ∈ SpanList.End l :: live_after o spans ->
  y ∈ SpanList.End l :: spans \/ y ∈ inserted_spans [o].
Proof.
  intros Hy. apply elem_of_cons in Hy as [->|Hy]; [left; left|].
  destruct o as [cur newspan|cur]; simpl in *.
  - apply elem_of_insert_before in Hy as [->|Hy]; [right; left|left; by right].
  - left. right. by apply elem_of_remove_span in Hy.
Qed.

Lemma inserted_spans_cons o ops y :
  y ∈ inserted_spans (o :: ops) <->
  y ∈ inserted_spans [o] \/ y ∈ inserted_spans ops.
Proof.
  destruct o as [cur newspan|cur]; simpl.
  - rewrite elem_of_cons, list_elem_of_singleton. tauto.
  - split; [by right|]. intros [H|H]; [by apply elem_of_nil in H|done].
Qed.

(** A valid sequence of operations on a well-formed list. *)
Lemma dll_run h1 l ops : forall h spans,
  dll h l spans -> (forall x, is_Some (h !! x) <-> is_Some (h1 !! x)) ->
  ops_ok h1 l spans ops ->
  exists h', run_ops l ops h = Ret h' /\
    dll h' l (live_after_all ops spans) /\
    (forall x s, h !! x = Some s ->
       exists s', h' !! x = Some s' /\ same_payload s s') /\
    (forall x, h !! x = None -> h' !! x = None) /\
    (forall x, x ∉ SpanList.End l :: spans -> x ∉ inserted_spans ops ->
       h' !! x = h !! x).
Proof.
  induction ops as [|o ops IH]; intros h spans Hd HA Hok.
  - exists h. split; [done|]. split; [done|]. split.
    { intros x s Hx. exists s. split; [done|apply same_payload_refl]. }
    split; by intros.
  - destruct Hok as [Ho Hok].
    assert (Ho' : op_ok h l spans o).
    { destruct o as [cur newspan|cur]; simpl in *; [|done].
      destruct Ho as (?&?&?). split; [done|]. split; [done|]. by apply HA. }
    destruct (dll_step h l spans o Hd Ho') as (h' & HE & Hd' & HA' & Hpl & Hfr).
    destruct (IH h' (live_after o spans) Hd') as (h'' & HR & Hd'' & Hpl' & Hn' & Hfr');
      [by intros x; rewrite HA', HA|done|].
    exists h''. split; [simpl; by rewrite HE|]. split; [done|].
    split; [|split].
    + intros x s Hx. destruct (Hpl x s Hx) as (s1 & Hx1 & Hp1).
      destruct (Hpl' x s1 Hx1) as (s2 & Hx2 & Hp2).
      exists s2. split; [done|]. by eapply same_payload_trans.
    + intros x Hx. apply Hn'. by apply (alloc_None h h' x (HA' x)).
    + intros x Hx Hxi.
      assert (Hx1 : x ∉ inserted_spans [o])
        by (intros Hin; apply Hxi, inserted_spans_cons; by left).
      assert (Hx2 : x ∉ inserted_spans ops)
        by (intros Hin; apply Hxi, inserted_spans_cons; by right).
      rewrite Hfr' by
        (try done; intros Hin; apply live_after_subset in Hin as [?|?]; done).
      by apply Hfr.
Qed.

(** X23: After any valid sequence of operations on a fresh list, every live span
    [x], and the sentinel, satisfies [x->_next->_prev == x] and
    [x->_prev->_next == x], its two neighbours being the sentinel or live
    spans; the sentinel and the live spans are different objects, none of
    them null. *)
Theorem SpanList_links_symmetric (h0 : heap) (a : ptr) (pageId nPage objSize : Z)
    (ops : list op) :
  a ≠ nullptr -> h0 !! nullptr = None ->
  exists l h1, SpanList.create a pageId nPage objSize h0 = Ret (l, h1) /\
    (ops_ok h1 l [] ops ->
     exists h', run_ops l ops h1 = Ret h' /\
       let nodes := SpanList.End l :: live_after_all ops [] in
       NoDup nodes /\
       forall x, x ∈ nodes ->
         x ≠ nullptr /\
         exists s sn sp,
           h' !! x = Some s /\
           h' !! _next s = Some sn /\ _prev sn = x /\
           h' !! _prev s = Some sp /\ _next sp = x /\
           _next s ∈ nodes /\ _prev s ∈ nodes).
Proof.
  intros Ha H0.
  destruct (create_dll h0 a pageId nPage objSize Ha H0) as (h1 & HC & Hd & _).
  exists (SpanList.mk a), h1. split; [exact HC|]. intros Hok.
  destruct (dll_run h1 (SpanList.mk a) ops h1 [] Hd) as (h' & HR & Hd' & _);
    [done|done|].
  exists h'. split; [exact HR|]. simpl. split; [by destruct Hd'|].
  intros x Hx. split; [by eapply dll_nonnull|].
  destruct (dll_neighbours _ _ _ x Hd' Hx)
    as (p & n & Hp & Hn & Hpin & Hnin & Hpn & Hnp).
  apply prv_Some in Hp as (s & Hs & Hsp).
  apply nxt_Some in Hn as (s' & Hs' & Hsn).
  assert (s' = s) by congruence. subst s'.
  apply nxt_Some in Hpn as (sp & Hsp' & Hspn).
  apply prv_Some in Hnp as (sn & Hsn' & Hsnp).
  exists s, sn, sp. rewrite Hsn, Hsp. by repeat split.
Qed.

Lemma SpanList_links_symmetric_witness :
  exists l h1, SpanList.create 1 0 0 0 loose_spans = Ret (l, h1) /\
    exists h', run_ops l [OpInsert 1 2; OpInsert 2 3; OpErase 2] h1 = Ret h' /\
      forall x, x ∈ [1; 3] ->
        exists s sn sp,
          h' !! x = Some s /\
          h' !! _next s = Some sn /\ _prev sn = x /\
          h' !! _prev s = Some sp /\ _next sp = x.
Proof.
  destruct (SpanList_links_symmetric loose_spans 1 0 0 0
              [OpInsert 1 2; OpInsert 2 3; OpErase 2])
    as (l & h1 & HC & H).
  - unfold nullptr. lia.
  - reflexivity.
  - exists l, h1. split; [exact HC|].
    vm_compute in HC. injection HC as <- <-.
    destruct H as (h' & HR & _ & Hall).
    + simpl. repeat split.
      all: try (rewrite list_elem_of_In; simpl; lia).
      all: try (eexists; vm_compute; reflexivity).
    + exists h'. split; [exact HR|]. intros x Hx.
      destruct (Hall x Hx) as (_ & s & sn & sp & ? & ? & ? & ? & ? & _).
      by exists s, sn, sp.
Defined.

(** X24: A valid sequence of operations on a fresh list keeps every [Span]
    object and its members other than the two links, creates no object, and
    leaves every span that is neither the sentinel nor inserted by the
    sequence unchanged. *)
Theorem SpanList_ops_frame (h0 : heap) (a : ptr) (pageId nPage objSize : Z)
    (ops : list op) :
  a ≠ nullptr -> h0 !! nullptr = None ->
  exists l h1, SpanList.create a pageId nPage objSize h0 = Ret (l, h1) /\
    (ops_ok h1 l [] ops ->
     exists h', run_ops l ops h1 = Ret h' /\
       (forall x s, h1 !! x = Some s ->
          exists s', h' !! x = Some s' /\ same_payload s s') /\
       (forall x, h1 !! x = None -> h' !! x = None) /\
       (forall x, x ≠ SpanList.End l -> x ∉ inserted_spans ops ->
          h' !! x = h1 !! x)).
Proof.
  intros Ha H0.
  destruct (create_dll h0 a pageId nPage objSize Ha H0) as (h1 & HC & Hd & _).
  exists (SpanList.mk a), h1. split; [exact HC|]. intros Hok.
  destruct (dll_run h1 (SpanList.mk a) ops h1 [] Hd)
    as (h' & HR & _ & Hpl & Hn & Hfr); [done|done|].
  exists h'. split; [exact HR|]. split; [done|]. split; [done|].
  intros x Hx Hxi. apply Hfr; [|done].
  intros Hin. by apply list_elem_of_singleton in Hin.
Qed.

Lemma SpanList_ops_frame_witness :
  exists l h1, SpanList.create 1 0 0 0 loose_spans = Ret (l, h1) /\
    exists h', run_ops l [OpInsert 1 2; OpInsert 2 3; OpErase 2] h1 = Ret h' /\
      h' !! 4 = h1 !! 4.
Proof.
  destruct (SpanList_ops_frame loose_spans 1 0 0 0
              [OpInsert 1 2; OpInsert 2 3; OpErase 2])
    as (l & h1 & HC & H).
  - unfold nullptr. lia.
  - reflexivity.
  - exists l, h1. split; [exact HC|].
    vm_compute in HC. injection HC as <- <-.
    destruct H as (h' & HR & _ & _ & Hfr).
    + simpl. repeat split.
      all: try (rewrite list_elem_of_In; simpl; lia).
      all: try (eexists; vm_compute; reflexivity).
    + exists h'. split; [exact HR|]. apply Hfr.
      * simpl. lia.
      * rewrite list_elem_of_In. simpl. lia.
Defined.

Lemma walk_next_fuel h z l : forall a fuel,
  chain h a l z -> z ∉ l ->
  walk_next fuel h z (hd z l) =
  if decide (length l <= fuel)%nat then Some l else None.
Proof.
  induction l as [|b l IH]; intros a fuel Hc Hz.
  - rewrite decide_True by (simpl; lia).
    destruct fuel; simpl; by rewrite Z.eqb_refl.
  - apply not_elem_of_cons in Hz as [Hzb Hz]. destruct Hc as [_ Hc].
    assert (E : (b =? z) = false) by (apply Z.eqb_neq; congruence).
    destruct fuel as [|fuel]; cbn [walk_next hd length]; rewrite E.
    + by rewrite decide_False by lia.
    + pose proof (chain_hd _ _ _ _ Hc) as Hn.
      apply nxt_Some in Hn as (s & -> & ->).
      rewrite (IH b fuel Hc Hz).
      repeat case_decide; try lia; done.
Qed.

Lemma walk_prev_fuel h a l : forall z fuel,
  chain h a l z -> a ∉ l ->
  walk_prev fuel h a (List.last l a) =
  if decide (length l <= fuel)%nat then Some (rev l) else None.
Proof.
  induction l as [|x l IH] using rev_ind; intros z fuel Hc Ha.
  - rewrite decide_True by (simpl; lia).
    destruct fuel; simpl; by rewrite Z.eqb_refl.
  - apply not_elem_of_app in Ha as [Ha Hax].
    apply not_elem_of_cons in Hax as [Hax _].
    apply chain_app in Hc as [Hc _].
    rewrite List.last_last, length_app, Nat.add_1_r, rev_unit.
    assert (E : (x =? a) = false) by (apply Z.eqb_neq; congruence).
    destruct fuel as [|fuel]; cbn [walk_prev]; rewrite E.
    + by rewrite decide_False by lia.
    + pose proof Hc as Hc'. rewrite <- (app_nil_r l) in Hc'.
      apply chain_prv in Hc'. simpl in Hc'.
      apply prv_Some in Hc' as (s & -> & ->).
      rewrite (IH x fuel Hc Ha).
      repeat case_decide; try lia; done.
Qed.

(** X22: On a well-formed list the two loops need exactly one iteration per
    span: with that many or more they return the spans, in [_next] order or
    in reverse, and with fewer they do not reach [End()]. *)
Theorem traverse_fuel_exact (h : heap) (l : SpanList.t) (spans : list ptr)
    (fuel : nat) :
  dll h l spans ->
  traverse_next fuel l h =
    (if decide (length spans <= fuel)%nat then Some spans else None) /\
  traverse_prev fuel l h =
    (if decide (length spans <= fuel)%nat then Some (rev spans) else None).
Proof.
  intros (Hnd & Hc & H0). apply NoDup_cons in Hnd as [Hh Hnd].
  pose proof (chain_hd _ _ _ _ Hc) as Hn.
  pose proof (chain_prv h spans (SpanList.End l) [] (SpanList.End l)) as Hp.
  rewrite app_nil_r in Hp. specialize (Hp Hc). simpl in Hp.
  apply nxt_Some in Hn as (s & Hs & Hsn).
  apply prv_Some in Hp as (s' & Hs' & Hsp).
  assert (s' = s) by congruence. subst s'. split.
  - unfold traverse_next, SpanList.Begin, span_at.
    unfold SpanList.End in Hs. rewrite Hs. simpl. rewrite Hsn.
    by apply (walk_next_fuel h _ spans (SpanList.End l)).
  - unfold traverse_prev. rewrite Hs, Hsp.
    by apply (walk_prev_fuel h _ spans (SpanList.End l)).
Qed.

Lemma three_spans_dll : dll three_spans (SpanList.mk 1) [2; 3].
Proof.
  split; [|split].
  - apply (bool_decide_unpack _). vm_compute. exact I.
  - simpl. unfold link. repeat split; reflexivity.
  - reflexivity.
Defined.

Lemma traverse_fuel_exact_witness :
  traverse_next 1 (SpanList.mk 1) three_spans = None /\
  traverse_prev 2 (SpanList.mk 1) three_spans = Some [3; 2].
Proof.
  split.
  - apply (proj1 (traverse_fuel_exact three_spans (SpanList.mk 1) [2; 3] 1
                    three_spans_dll)).
  - apply (proj2 (traverse_fuel_exact three_spans (SpanList.mk 1) [2; 3] 2
                    three_spans_dll)).
Defined.

Lemma insert_before_head (head newspan : ptr) (spans : list ptr) :
  head ∉ spans -> insert_before head newspan spans = spans ++ [newspan].
Proof.
  intros Hni. rewrite <- (app_nil_r spans) at 1.
  by rewrite insert_before_app.
Qed.

Lemma insert_before_hd (head newspan : ptr) (spans : list ptr) :
  head ∉ spans ->
  insert_before (hd head spans) newspan spans = newspan :: spans.
Proof.
  destruct spans as [|x spans]; simpl; [done|]. intros _.
  by rewrite decide_True.
Qed.

(** X20: On a well-formed list, [Insert(Begin(), newspan)] puts a span that is
    not in the list in front of all others and [Insert(End(), newspan)]
    behind all others, as both loops show afterwards. *)
Theorem Insert_front_back (h : heap) (l : SpanList.t) (spans : list ptr)
    (newspan : ptr) :
  dll h l spans -> newspan ∉ SpanList.End l :: spans -> is_Some (h !! newspan) ->
  (exists b h', SpanList.Begin l h = Ret b /\
     SpanList.Insert l b newspan h = Ret h' /\
     traverse_next (S (length spans)) l h' = Some (newspan :: spans) /\
     traverse_prev (S (length spans)) l h' = Some (rev spans ++ [newspan])) /\
  (exists h', SpanList.Insert l (SpanList.End l) newspan h = Ret h' /\
     traverse_next (S (length spans)) l h' = Some (spans ++ [newspan]) /\
     traverse_prev (S (length spans)) l h' = Some (newspan :: rev spans)).
Proof.
  intros Hd Hnew Hal. pose proof Hd as (Hnd & Hc & H0).
  pose proof Hnd as Hnd'. apply NoDup_cons in Hnd' as [Hh _].
  split.
  - exists (hd (SpanList.End l) spans).
    destruct (dll_Insert h l spans (hd (SpanList.End l) spans) newspan)
      as (h' & HE & Hd' & _); try done.
    { pose proof (hd_elem_of spans (SpanList.End l)) as Hin.
      apply elem_of_app in Hin as [Hin|Hin]; [by right|].
      apply list_elem_of_singleton in Hin. rewrite Hin. left. }
    exists h'. split.
    { pose proof (chain_hd _ _ _ _ Hc) as Hn.
      apply nxt_Some in Hn as (s & Hs & Hsn).
      unfold SpanList.Begin, span_at. unfold SpanList.End in Hs.
      rewrite Hs. simpl. by rewrite Hsn. }
    split; [done|].
    rewrite insert_before_hd in Hd' by done.
    destruct (dll_traverse _ _ _ Hd') as (Hn & Hp & _). simpl in Hn, Hp.
    by split.
  - destruct (dll_Insert h l spans (SpanList.End l) newspan)
      as (h' & HE & Hd' & _); try done; [left|].
    exists h'. split; [done|].
    rewrite insert_before_head in Hd' by done.
    destruct (dll_traverse _ _ _ Hd') as (Hn & Hp & _).
    rewrite length_app, Nat.add_1_r, rev_unit in *. by split.
Qed.

Lemma three_spans_and_one_dll : dll three_spans_and_one (SpanList.mk 1) [2; 3].
Proof.
  split; [|split].
  - apply (bool_decide_unpack _). vm_compute. exact I.
  - simpl. unfold link. repeat split; reflexivity.
  - reflexivity.
Defined.

Lemma Insert_front_back_witness :
  (exists b h', SpanList.Begin (SpanList.mk 1) three_spans_and_one = Ret b /\
     SpanList.Insert (SpanList.mk 1) b 5 three_spans_and_one = Ret h' /\
     traverse_next 3 (SpanList.mk 1) h' = Some [5; 2; 3] /\
     traverse_prev 3 (SpanList.mk 1) h' = Some [3; 2; 5]) /\
  (exists h', SpanList.Insert (SpanList.mk 1) 1 5 three_spans_and_one = Ret h' /\
     traverse_next 3 (SpanList.mk 1) h' = Some [2; 3; 5] /\
     traverse_prev 3 (SpanList.mk 1) h' = Some [5; 3; 2]).
Proof.
  apply (Insert_front_back three_spans_and_one (SpanList.mk 1) [2; 3] 5
           three_spans_and_one_dll).
  - rewrite list_elem_of_In. simpl. lia.
  - eexists. reflexivity.
Defined.

(** X21: Moving a span from one well-formed list to another that shares no span
    with it, by [Erase] on the first and [Insert] at a position of the
    second, leaves both lists well formed: the first loses the span, the
    second has it before the position, and both loops agree on each. *)
Theorem move_span_between_lists (h : heap) (l1 l2 : SpanList.t)
    (s1 s2 : list ptr) (cur pos : ptr) :
  dll h l1 s1 -> dll h l2 s2 ->
  (forall x, x ∈ SpanList.End l1 :: s1 -> x ∉ SpanList.End l2 :: s2) ->
  cur ∈ s1 -> pos ∈ SpanList.End l2 :: s2 ->
  exists h1 h2,
    SpanList.Erase l1 cur h = Ret h1 /\
    SpanList.Insert l2 pos cur h1 = Ret h2 /\
    let s1' := remove_span cur s1 in
    let s2' := insert_before pos cur s2 in
    traverse_next (length s1') l1 h2 = Some s1' /\
    traverse_prev (length s1') l1 h2 = Some (rev s1') /\
    traverse_next (length s2') l2 h2 = Some s2' /\
    traverse_prev (length s2') l2 h2 = Some (rev s2').
Proof.
  intros Hd1 Hd2 Hdisj Hcur Hpos.
  assert (Hcur1 : cur ∈ SpanList.End l1 :: s1) by (by right).
  destruct (dll_step h l1 s1 (OpErase cur) Hd1 Hcur)
    as (h1 & HE & Hd1' & HA1 & _ & Hfr1).
  simpl in HE, Hd1', Hfr1.
  assert (Hd2' : dll h1 l2 s2).
  { apply (dll_frame h); [done| |by destruct Hd1' as (_ & _ & ?)].
    intros x Hx. unfold nxt, prv. rewrite Hfr1; [done| |apply not_elem_of_nil].
    intros Hin. by apply (Hdisj x Hin). }
  assert (Hok : op_ok h1 l2 s2 (OpInsert pos cur)).
  { split; [done|]. split; [by apply Hdisj|].
    apply HA1. destruct Hd1 as (_ & Hc & _).
    by apply (chain_alloc _ _ _ _ _ Hc). }
  destruct (dll_step h1 l2 s2 (OpInsert pos cur) Hd2' Hok)
    as (h2 & HI & Hd2'' & _ & _ & Hfr2).
  simpl in HI, Hd2'', Hfr2.
  assert (Hd1'' : dll h2 l1 (remove_span cur s1)).
  { apply (dll_frame h1); [done| |by destruct Hd2'' as (_ & _ & ?)].
    intros x Hx.
    assert (Hx1 : x ∈ SpanList.End l1 :: s1).
    { apply elem_of_cons in Hx as [->|Hx]; [left|right].
      by apply elem_of_remove_span in Hx. }
    assert (Hxc : x ≠ cur).
    { intros ->. apply elem_of_cons in Hx as [E|Hx].
      - destruct Hd1 as (Hnd & _ & _). apply NoDup_cons in Hnd as [Hh _].
        apply Hh. by rewrite <- E.
      - unfold remove_span in Hx. by apply list_elem_of_filter in Hx as [? _]. }
    unfold nxt, prv. rewrite Hfr2; [done|by apply Hdisj|].
    intros Hin. by apply list_elem_of_singleton in Hin. }
  exists h1, h2. split; [done|]. split; [done|]. simpl.
  destruct (dll_traverse _ _ _ Hd1'') as (? & ? & _).
  destruct (dll_traverse _ _ _ Hd2'') as (? & ? & _).
  by repeat split.
Qed.

Lemma two_lists_dll :
  dll two_lists (SpanList.mk 1) [2; 3] /\ dll two_lists (SpanList.mk 10) [11].
Proof.
  split; (split; [|split]).
  - apply (bool_decide_unpack _). vm_compute. exact I.
  - simpl. unfold link. repeat split; reflexivity.
  - reflexivity.
  - apply (bool_decide_unpack _). vm_compute. exact I.
  - simpl. unfold link. repeat split; reflexivity.
  - reflexivity.
Defined.

Lemma move_span_between_lists_witness :
  exists h1 h2,
    SpanList.Erase (SpanList.mk 1) 2 two_lists = Ret h1 /\
    SpanList.Insert (SpanList.mk 10) 11 2 h1 = Ret h2 /\
    traverse_next 1 (SpanList.mk 1) h2 = Some [3] /\
    traverse_prev 1 (SpanList.mk 1) h2 = Some [3] /\
    traverse_next 2 (SpanList.mk 10) h2 = Some [2; 11] /\
    traverse_prev 2 (SpanList.mk 10) h2 = Some [11; 2].
Proof.
  apply (move_span_between_lists two_lists (SpanList.mk 1) (SpanList.mk 10)
           [2; 3] [11] 2 11 (proj1 two_lists_dll) (proj2 two_lists_dll)).
  - intros x Hx. rewrite list_elem_of_In in *. simpl in *. lia.
  - rewrite list_elem_of_In. simpl. lia.
  - rewrite list_elem_of_In. simpl. lia.
Defined.
